(** * IntaRNA core: index-range lists, interaction energies, bounded result store

    A shallow embedding of
      - [src/IndexRangeList.cpp]                       (module [IndexRangeList]),
      - [src/InteractionEnergy.h]                      (module [InteractionEnergy]),
      - [src/InteractionEnergyBasePair.h]              (module [InteractionEnergyBasePair]),
      - [src/IntaRNA/OutputHandlerInteractionList.cpp] (module [OutputHandlerInteractionList]).

    Conventions.  A [size_t] value is an integer in [Z]; where the source
    subtracts or adds [size_t] values the wrap-around modulo [2^w] is written
    out.  Containers are lists, iterators are positions in the list.
    Exceptions and undefined reads are explicit constructors of the result. *)

From Stdlib Require Import String Ascii.
From Stdlib Require Import ZArith List Bool Lia.
From Stdlib Require Import Sorting.Sorted Sorting.Permutation.
From Stdlib Require Import Floats.SpecFloat.
From Equations Require Import Equations.
Import ListNotations.

Set Implicit Arguments.

(* ===================================================================== *)
(** * The search loop of [std::lower_bound] and [std::upper_bound] *)
(* ===================================================================== *)

Module StdAlgorithm.

(** ** Orders the library algorithms accept

    [std::lower_bound] and [std::upper_bound] ask of [comp] that it is a
    strict weak ordering. *)
Class StrictWeakOrder {A : Type} (ltb : A -> A -> bool) : Prop := {
  ltb_irrefl  : forall a, ltb a a = false;
  ltb_trans   : forall a b c, ltb a b = true -> ltb b c = true -> ltb a c = true;
  ltb_cotrans : forall a b c, ltb a b = true -> ltb a c = true \/ ltb c b = true
}.

(** the laws for an order that compares two integer keys in turn *)
Ltac lexicographic :=
  repeat match goal with
  | H : _ || _ = true |- _ => apply orb_true_iff in H; destruct H
  | H : _ && _ = true |- _ => apply andb_true_iff in H; destruct H
  | H : (_ <? _)%Z = true |- _ => apply Z.ltb_lt in H
  | H : (_ =? _)%Z = true |- _ => apply Z.eqb_eq in H
  end;
  rewrite ?orb_false_iff, ?orb_true_iff, ?andb_false_iff, ?andb_true_iff,
          ?Z.ltb_lt, ?Z.ltb_ge, ?Z.eqb_eq, ?Z.eqb_neq; lia.

Section Search.
Context {A : Type}.

(** The loop both library functions run over the range [[first, first+len)]:
<<
    while (len > 0) {
      half = len >> 1;  middle = first;  advance(middle, half);
      if (go_right(middle)) { first = middle; ++first; len = len - half - 1; }
      else                   len = half;
    }
    return first;
>>
    [go_right] is [comp(elem, value)] for [lower_bound] and
    [!comp(value, elem)] for [upper_bound].  Positions are offsets from
    [begin()]; a read past the end (never reached for [first + len] within
    the container) stops the loop. *)
Equations? search_loop (go_right : A -> bool) (l : list A) (first len : nat)
  : nat by wf len lt :=
  search_loop go_right l first 0 := first;
  search_loop go_right l first (S n) with nth_error l (first + Nat.div2 (S n)) => {
    | Some x with go_right x => {
        | true  := search_loop go_right l (first + Nat.div2 (S n) + 1)
                                          (S n - Nat.div2 (S n) - 1);
        | false := search_loop go_right l first (Nat.div2 (S n)) };
    | None := first }.
Proof.
  all: destruct n as [|n']; simpl; try lia;
    pose proof (Nat.le_div2_diag_l n'); destruct (Nat.div2 n'); lia.
Qed.

(** [std::lower_bound(begin, end, value, comp)] *)
Definition lower_bound (comp : A -> A -> bool) (l : list A) (value : A) : nat :=
  search_loop (fun elem => comp elem value) l 0 (length l).

(** [std::upper_bound(begin, end, value)] with [comp] as [operator<] *)
Definition upper_bound (comp : A -> A -> bool) (l : list A) (value : A) : nat :=
  search_loop (fun elem => negb (comp value elem)) l 0 (length l).

(** [container.insert(pos, x)]: [x] is placed before position [pos]. *)
Definition insert_at (pos : nat) (x : A) (l : list A) : list A :=
  firstn pos l ++ x :: skipn pos l.

(** [storage.resize(storage.size()-1)]: the last element is dropped. *)
Definition drop_last (l : list A) : list A := firstn (length l - 1) l.

(** The element [*rbegin()] reads; [None] on an empty container. *)
Definition rbegin_elem (l : list A) : option A := nth_error l (length l - 1).

(** not descending: no element is smaller than an earlier one *)
Definition ascending (ltb : A -> A -> bool) (l : list A) : Prop :=
  StronglySorted (fun a b => ltb b a = false) l.

(** ascending without two elements of equal rank *)
Definition strictly_ascending (ltb : A -> A -> bool) (l : list A) : Prop :=
  StronglySorted (fun a b => ltb a b = true) l.

(** [go_right] holds exactly on the positions before [p] *)
Definition partitioned_at (go_right : A -> bool) (l : list A) (p : nat) : Prop :=
  p <= length l /\
  forall i x, nth_error l i = Some x -> go_right x = (i <? p).

(** ** What the loop computes on a partitioned range *)

Lemma search_loop_partition_point go_right l p first len :
  partitioned_at go_right l p ->
  first <= p <= first + len -> first + len <= length l ->
  search_loop go_right l first len = p.
Proof.
  intros [Hp Hpart].
  funelim (search_loop go_right l first len); intros Hfp Hlen.
  - lia.
  - apply nth_error_None in Heq.
    pose proof (Nat.lt_div2 (S n)). lia.
  - pose proof (Hpart _ _ Heq0) as Hx. rewrite Heq in Hx.
    symmetry in Hx. apply Nat.ltb_lt in Hx.
    pose proof (Nat.lt_div2 (S n)).
    apply H; auto; lia.
  - pose proof (Hpart _ _ Heq0) as Hx. rewrite Heq in Hx.
    symmetry in Hx. apply Nat.ltb_ge in Hx.
    pose proof (Nat.lt_div2 (S n)).
    apply H; auto; lia.
Qed.

Lemma split_partitioned go_right (l1 l2 : list A) :
  Forall (fun x => go_right x = true) l1 ->
  Forall (fun x => go_right x = false) l2 ->
  partitioned_at go_right (l1 ++ l2) (length l1).
Proof.
  intros H1 H2. split.
  - rewrite length_app. lia.
  - intros i x Hi.
    destruct (Nat.ltb_spec i (length l1)) as [Hlt | Hge].
    + rewrite nth_error_app1 in Hi by assumption.
      rewrite Forall_forall in H1. apply H1. eapply nth_error_In; eauto.
    + rewrite nth_error_app2 in Hi by assumption.
      rewrite Forall_forall in H2. apply H2. eapply nth_error_In; eauto.
Qed.

Lemma search_loop_split go_right (l1 l2 : list A) :
  Forall (fun x => go_right x = true) l1 ->
  Forall (fun x => go_right x = false) l2 ->
  search_loop go_right (l1 ++ l2) 0 (length (l1 ++ l2)) = length l1.
Proof.
  intros H1 H2.
  apply search_loop_partition_point.
  - apply split_partitioned; assumption.
  - rewrite length_app. lia.
  - lia.
Qed.

(** A range sorted by [R] splits at any predicate that [R] carries
    backwards. *)
Lemma sorted_split (R : A -> A -> Prop) go_right (l : list A) :
  (forall x y, R x y -> go_right y = true -> go_right x = true) ->
  StronglySorted R l ->
  exists l1 l2, l = l1 ++ l2 /\
    Forall (fun x => go_right x = true) l1 /\
    Forall (fun x => go_right x = false) l2.
Proof.
  intros Hmono Hs. induction Hs as [| a r Hr IH Ha].
  - exists [], []. repeat split; constructor.
  - destruct (go_right a) eqn:Ega.
    + destruct IH as (l1 & l2 & -> & F1 & F2).
      exists (a :: l1), l2. repeat split; auto.
    + exists [], (a :: r). repeat split; auto.
      constructor; auto.
      rewrite Forall_forall in Ha |- *. intros y Hy.
      destruct (go_right y) eqn:Egy; auto.
      rewrite (Hmono _ _ (Ha y Hy) Egy) in Ega. discriminate.
Qed.

Lemma insert_at_split (l1 l2 : list A) x :
  insert_at (length l1) x (l1 ++ l2) = l1 ++ x :: l2.
Proof.
  unfold insert_at.
  rewrite firstn_app, skipn_app, Nat.sub_diag, firstn_all, skipn_all.
  simpl. rewrite app_nil_r. reflexivity.
Qed.

Lemma rbegin_elem_snoc (l : list A) (a : A) :
  rbegin_elem (l ++ [a]) = Some a.
Proof.
  unfold rbegin_elem. rewrite length_app. simpl.
  replace (length l + 1 - 1) with (length l) by lia.
  rewrite nth_error_app2 by lia. rewrite Nat.sub_diag. reflexivity.
Qed.

Lemma firstn_length_app (l1 l2 : list A) :
  firstn (length l1) (l1 ++ l2) = l1.
Proof.
  rewrite firstn_app, firstn_all, Nat.sub_diag, firstn_O. apply app_nil_r.
Qed.

Lemma drop_last_snoc (l : list A) (a : A) :
  drop_last (l ++ [a]) = l.
Proof.
  unfold drop_last. rewrite length_app. simpl.
  replace (length l + 1 - 1) with (length l) by lia.
  apply firstn_length_app.
Qed.

Lemma nth_error_middle (l1 l2 : list A) (a : A) :
  nth_error (l1 ++ a :: l2) (length l1) = Some a.
Proof.
  rewrite nth_error_app2 by lia. rewrite Nat.sub_diag. reflexivity.
Qed.

Lemma StronglySorted_app_iff (R : A -> A -> Prop) (l1 l2 : list A) :
  StronglySorted R (l1 ++ l2) <->
  StronglySorted R l1 /\ StronglySorted R l2 /\
  (forall x y, In x l1 -> In y l2 -> R x y).
Proof.
  induction l1 as [| a l1 IH]; simpl.
  - split.
    + intros H. repeat split; auto. constructor. intros x y [].
    + intros (_ & H & _). exact H.
  - split.
    + intros H. apply StronglySorted_inv in H. destruct H as [Hs Hf].
      apply IH in Hs. destruct Hs as (S1 & S2 & H12).
      rewrite Forall_app in Hf. destruct Hf as [Hf1 Hf2].
      repeat split; auto.
      * constructor; auto.
      * intros x y [-> | Hx] Hy; auto.
        rewrite Forall_forall in Hf2. auto.
    + intros (S1 & S2 & H12).
      apply StronglySorted_inv in S1. destruct S1 as [S1 Hf1].
      constructor.
      * apply IH. repeat split; auto.
      * rewrite Forall_app. split; auto.
        rewrite Forall_forall. intros y Hy. apply H12; auto.
Qed.

(** ** What the loop computes on any range *)

(** The loop stays within the range it is given. *)
Lemma search_loop_bounds go_right (l : list A) first len :
  first <= search_loop go_right l first len <= first + len.
Proof.
  funelim (search_loop go_right l first len).
  - lia.
  - lia.
  - pose proof (Nat.lt_div2 (S n) (Nat.lt_0_succ n)).
    clear Heqcall. set (half := Nat.div2 (S n)) in *. lia.
  - pose proof (Nat.lt_div2 (S n) (Nat.lt_0_succ n)).
    clear Heqcall. set (half := Nat.div2 (S n)) in *. lia.
Qed.

(** The loop moves [first] only past an element it has tested: the position
    it returns is the start, or follows an element on which [go_right]
    holds. *)
Lemma search_loop_last_step go_right (l : list A) first len :
  search_loop go_right l first len = first \/
  exists x, first < search_loop go_right l first len /\
            nth_error l (search_loop go_right l first len - 1) = Some x /\
            go_right x = true.
Proof.
  funelim (search_loop go_right l first len).
  - left. reflexivity.
  - left. reflexivity.
  - right. clear Heqcall. set (half := Nat.div2 (S n)) in *.
    destruct H as [Hp | (y & Hlt & Hy & Hg)].
    + exists x. rewrite Hp. repeat split.
      * lia.
      * replace (first + half + 1 - 1) with (first + half) by lia.
        assumption.
      * assumption.
    + exists y. repeat split; auto. lia.
  - destruct H as [Hp | (y & Hlt & Hy & Hg)].
    + left. assumption.
    + right. exists y. repeat split; auto.
Qed.

Lemma upper_bound_le_length (comp : A -> A -> bool) (l : list A) value :
  upper_bound comp l value <= length l.
Proof.
  unfold upper_bound.
  pose proof (search_loop_bounds (fun elem => negb (comp value elem)) l 0 (length l)).
  lia.
Qed.

(** [erase] undoes [insert] at the same position. *)
Lemma insert_at_remove (pos : nat) (x : A) (l : list A) :
  pos <= length l ->
  firstn pos (insert_at pos x l) ++ skipn (S pos) (insert_at pos x l) = l.
Proof.
  intros Hpos. unfold insert_at.
  assert (Hlen : length (firstn pos l) = pos) by (rewrite length_firstn; lia).
  rewrite <- Hlen at 1. rewrite firstn_length_app.
  replace (S pos) with (length (firstn pos l ++ [x]))
    by (rewrite length_app; simpl; lia).
  replace (firstn pos l ++ x :: skipn pos l)
    with ((firstn pos l ++ [x]) ++ skipn pos l)
    by (rewrite <- app_assoc; reflexivity).
  rewrite skipn_app, skipn_all, Nat.sub_diag. simpl.
  apply firstn_skipn.
Qed.

End Search.

Section Ordered.
Context {A : Type} (ltb : A -> A -> bool) {SWO : StrictWeakOrder ltb}.

Lemma ltb_asym a b : ltb a b = true -> ltb b a = false.
Proof.
  intros H. destruct (ltb b a) eqn:E; auto.
  pose proof (ltb_trans _ _ _ H E) as Haa.
  rewrite ltb_irrefl in Haa. discriminate.
Qed.

Lemma strictly_ascending_ascending l : strictly_ascending ltb l -> ascending ltb l.
Proof.
  unfold strictly_ascending, ascending.
  induction 1 as [| a r Hr IH Ha]; constructor; auto.
  eapply Forall_impl; [| exact Ha]. intros; apply ltb_asym; assumption.
Qed.

(** On an ascending range [upper_bound] returns the end of the elements
    that are not greater than [value]. *)
Lemma upper_bound_ascending l value :
  ascending ltb l ->
  exists l1 l2, l = l1 ++ l2 /\
    Forall (fun x => ltb value x = false) l1 /\
    Forall (fun x => ltb value x = true) l2 /\
    upper_bound ltb l value = length l1.
Proof.
  intros Hs.
  destruct (@sorted_split A (fun a b => ltb b a = false)
              (fun x => negb (ltb value x)) l) as (l1 & l2 & -> & F1 & F2); auto.
  - intros x y Hxy Hy. apply negb_true_iff in Hy. apply negb_true_iff.
    destruct (ltb value x) eqn:E; auto.
    destruct (ltb_cotrans _ _ y E); congruence.
  - exists l1, l2. repeat split.
    + eapply Forall_impl; [| exact F1]. intros a Ha. now apply negb_true_iff in Ha.
    + eapply Forall_impl; [| exact F2]. intros a Ha. now apply negb_false_iff in Ha.
    + unfold upper_bound. apply search_loop_split; assumption.
Qed.

(** On an ascending range [lower_bound] returns the end of the elements
    that are smaller than [value]. *)
Lemma lower_bound_ascending l value :
  ascending ltb l ->
  exists l1 l2, l = l1 ++ l2 /\
    Forall (fun x => ltb x value = true) l1 /\
    Forall (fun x => ltb x value = false) l2 /\
    lower_bound ltb l value = length l1.
Proof.
  intros Hs.
  destruct (@sorted_split A (fun a b => ltb b a = false)
              (fun x => ltb x value) l) as (l1 & l2 & -> & F1 & F2); auto.
  - intros x y Hxy Hy.
    destruct (ltb_cotrans _ _ x Hy); congruence.
  - exists l1, l2. repeat split; auto.
    unfold lower_bound. apply search_loop_split; assumption.
Qed.

(** Placing [value] at its [upper_bound] keeps an ascending range
    ascending and adds exactly [value]. *)
Lemma insert_at_upper_bound l value :
  ascending ltb l ->
  let pos := upper_bound ltb l value in
  ascending ltb (insert_at pos value l) /\
  Permutation (value :: l) (insert_at pos value l) /\
  nth_error (insert_at pos value l) pos = Some value.
Proof.
  intros Hs.
  destruct (upper_bound_ascending value Hs) as (l1 & l2 & -> & F1 & F2 & ->).
  cbv zeta. rewrite insert_at_split.
  apply StronglySorted_app_iff in Hs. destruct Hs as (S1 & S2 & H12).
  rewrite Forall_forall in F1, F2.
  repeat split.
  - apply StronglySorted_app_iff. repeat split; auto.
    + constructor; auto. rewrite Forall_forall. intros y Hy.
      apply ltb_asym. auto.
    + intros x y Hx [<- | Hy]; auto.
  - apply Permutation_middle.
  - rewrite nth_error_app2 by lia. rewrite Nat.sub_diag. reflexivity.
Qed.

End Ordered.

End StdAlgorithm.

(* ===================================================================== *)
(** * Results of calls that may throw *)
(* ===================================================================== *)

(** A call either returns, or leaves by [throw std::runtime_error(what)]. *)
Inductive result (A : Type) : Type :=
| Returns (a : A)
| Throws (what : string).
Arguments Returns {A} a.
Arguments Throws {A} what.

(** [std::numeric_limits<size_t>::max()] for a [size_t] of [w] bits *)
Definition size_t_max (w : Z) : Z := (2 ^ w - 1)%Z.

(* ===================================================================== *)
(** * IndexRange *)
(* ===================================================================== *)

Module IndexRange.

Local Open Scope Z_scope.

(** Modelled from the spec: [IndexRange.h] is not among the sources.  The
    spec gives the struct [{from, to}] of unsigned indices, the order
    (lexicographic on [(from, to)]) and [isAscending] / [isDescending]
    ([from <= to] / [from >= to]). *)
Record t : Type := mk { from : Z; to : Z }.

Definition ltb (a b : t) : bool :=
  (from a <? from b) || ((from a =? from b) && (to a <? to b)).

Definition isAscending (r : t) : bool := from r <=? to r.

Definition isDescending (r : t) : bool := from r >=? to r.

#[global] Instance ltb_order : StdAlgorithm.StrictWeakOrder ltb.
Proof. split; unfold ltb; intros; StdAlgorithm.lexicographic. Qed.

End IndexRange.

(* ===================================================================== *)
(** * IndexRangeList ([src/IndexRangeList.cpp]) *)
(* ===================================================================== *)

Module IndexRangeList.

Import StdAlgorithm.
Local Open Scope Z_scope.

(** the member [list]: the ranges in container order *)
Definition t : Type := list IndexRange.t.

(** three ranges for the runs below; the last two meet at 9 *)
Definition example_ranges : t :=
  [IndexRange.mk 0 3; IndexRange.mk 5 9; IndexRange.mk 9 9].

Section WithBuild.

(** width of [size_t] *)
Variable w : Z.
(** the build switch [IN_DEBUG_MODE] *)
Variable IN_DEBUG_MODE : bool.

(** [IndexRangeList::covers] *)
Definition covers (l : t) (index : Z) : bool :=
  match l with
  | [] => false
  | _ =>
    let r := upper_bound IndexRange.ltb l (IndexRange.mk index (size_t_max w)) in
    if Nat.eqb r 0 then false
    else match nth_error l (r - 1)%nat with
         | Some prev => index <=? IndexRange.to prev
         | None => false
         end
  end.

(** [IndexRangeList::push_back] *)
Definition push_back (l : t) (range : IndexRange.t) : result t :=
  if IN_DEBUG_MODE && IndexRange.isDescending range
  then Throws "IndexRangeList::push_back() range is descending"
  else
    if IN_DEBUG_MODE
       && match rbegin_elem l with
          | Some last => IndexRange.to last >? IndexRange.from range
          | None => false
          end
    then Throws "IndexRangeList::push_back() violates order given last range"
    else Returns (l ++ [range]).

(** [IndexRangeList::insert]: the list afterwards and the returned iterator *)
Definition insert (l : t) (range : IndexRange.t) : result (t * nat) :=
  if IN_DEBUG_MODE && IndexRange.isDescending range
  then Throws "IndexRangeList::push_back() range is descending"
  else
    match l with
    | [] => Returns ([range], 0%nat)
    | _ =>
      let r := upper_bound IndexRange.ltb l range in
      Returns (insert_at r range l, r)
    end.

(** A list as a run of [push_back] calls leaves it, each call ascending
    ([from <= to]) and not overlapping the range added before it (the order
    check of [push_back]: the last [to] does not exceed the new [from]). *)
Inductive built : t -> Prop :=
| built_empty : built []
| built_push_back l range l' :
    built l ->
    IndexRange.isAscending range = true ->
    IndexRange.to range <= size_t_max w ->
    (forall last, rbegin_elem l = Some last ->
                  IndexRange.to last <= IndexRange.from range) ->
    push_back l range = Returns l' ->
    built l'.

(** [index] lies within [[from, to]] of some stored range *)
Definition within_some (l : t) (index : Z) : Prop :=
  exists r, In r l /\ IndexRange.from r <= index <= IndexRange.to r.

(** what a run of accepted [push_back] calls maintains *)
Definition well_formed (l : t) : Prop :=
  Forall (fun r => IndexRange.from r <= IndexRange.to r <= size_t_max w) l /\
  StronglySorted (fun a b => IndexRange.to a <= IndexRange.from b) l.

(** [IndexRangeList::erase]: the element at [i] is removed and the
    position of its successor returned; [list.erase] of a position that
    holds no element ([end()] or beyond) is undefined, [None] here. *)
Definition erase (l : t) (i : nat) : option (t * nat) :=
  if (i <? length l)%nat
  then Some (firstn i l ++ skipn (S i) l, i)
  else None.

(** [IndexRangeList::empty], [IndexRangeList::size], [IndexRangeList::clear] *)
Definition empty (l : t) : bool :=
  match l with
  | [] => true
  | _ => false
  end.

Definition size (l : t) : nat := length l.

Definition clear (l : t) : t := [].

(** a run of [push_back] calls, up to the first that throws *)
Fixpoint push_back_all (l : t) (ranges : list IndexRange.t) : result t :=
  match ranges with
  | [] => Returns l
  | range :: rest =>
    match push_back l range with
    | Returns l' => push_back_all l' rest
    | Throws what => Throws what
    end
  end.

(** a run of [insert] calls, up to the first that throws *)
Fixpoint insert_all (l : t) (ranges : list IndexRange.t) : result t :=
  match ranges with
  | [] => Returns l
  | range :: rest =>
    match insert l range with
    | Returns (l', _) => insert_all l' rest
    | Throws what => Throws what
    end
  end.

(** ** Facts about the container operations *)

Lemma push_back_returns l range l' :
  push_back l range = Returns l' -> l' = l ++ [range].
Proof.
  unfold push_back.
  destruct (IN_DEBUG_MODE && IndexRange.isDescending range); [discriminate |].
  destruct (IN_DEBUG_MODE && _); [discriminate |].
  intros H. inversion H. reflexivity.
Qed.

Lemma built_well_formed l : built l -> well_formed l.
Proof.
  induction 1 as [| l range l' Hb [IHf IHs] Hasc Hmax Hlast Hpush].
  - split; constructor.
  - apply push_back_returns in Hpush. subst l'.
    apply Z.leb_le in Hasc.
    split.
    + apply Forall_app. split; auto.
    + apply StronglySorted_app_iff. repeat split; auto.
      * repeat constructor.
      * intros x y Hx [<- | []].
        destruct (exists_last (l:=l)) as (l0 & last & ->).
        { intro; subst; contradiction. }
        specialize (Hlast last (rbegin_elem_snoc l0 last)).
        apply in_app_or in Hx. destruct Hx as [Hx | [<- | []]]; auto.
        apply StronglySorted_app_iff in IHs. destruct IHs as (_ & _ & H12).
        specialize (H12 x last Hx (or_introl eq_refl)).
        rewrite Forall_forall in IHf.
        specialize (IHf last (in_or_app _ _ _ (or_intror (in_eq _ _)))).
        lia.
Qed.

Lemma probe_ltb index r :
  IndexRange.to r <= size_t_max w ->
  IndexRange.ltb (IndexRange.mk index (size_t_max w)) r = (index <? IndexRange.from r).
Proof.
  intros Hmax. unfold IndexRange.ltb. simpl.
  replace (size_t_max w <? IndexRange.to r) with false
    by (symmetry; apply Z.ltb_ge; assumption).
  rewrite andb_false_r, orb_false_r. reflexivity.
Qed.

Lemma covers_unfold l index :
  covers l index =
    let r := upper_bound IndexRange.ltb l (IndexRange.mk index (size_t_max w)) in
    if Nat.eqb r 0 then false
    else match nth_error l (r - 1)%nat with
         | Some prev => index <=? IndexRange.to prev
         | None => false
         end.
Proof.
  destruct l; reflexivity.
Qed.

Lemma well_formed_ascending l : well_formed l -> ascending IndexRange.ltb l.
Proof.
  intros [Hf Hs]. unfold ascending.
  induction Hs as [| a r Hr IH Ha]; constructor.
  - apply IH. now inversion Hf.
  - inversion Hf as [| ? ? Hfa Hfr]; subst.
    rewrite Forall_forall in Ha, Hfr |- *. intros b Hb.
    specialize (Ha b Hb). specialize (Hfr b Hb).
    unfold IndexRange.ltb.
    apply orb_false_iff. split; [apply Z.ltb_ge; lia |].
    apply andb_false_iff.
    destruct (Z.eqb_spec (IndexRange.from b) (IndexRange.from a)); auto.
    right. apply Z.ltb_ge. lia.
Qed.

Lemma covers_well_formed l index :
  well_formed l ->
  covers l index = true <-> within_some l index.
Proof.
  intros Hwf. pose proof (well_formed_ascending Hwf) as Hasc.
  destruct Hwf as [Hf Hs].
  rewrite covers_unfold. cbv zeta.
  destruct (upper_bound_ascending (IndexRange.mk index (size_t_max w)) Hasc)
    as (l1 & l2 & -> & F1 & F2 & ->).
  apply Forall_app in Hf. destruct Hf as [Hf1 Hf2].
  assert (G1 : forall r, In r l1 -> IndexRange.from r <= index).
  { intros r Hr. rewrite Forall_forall in F1, Hf1.
    specialize (F1 r Hr). rewrite probe_ltb in F1 by (apply Hf1; auto).
    now apply Z.ltb_ge in F1. }
  assert (G2 : forall r, In r l2 -> index < IndexRange.from r).
  { intros r Hr. rewrite Forall_forall in F2, Hf2.
    specialize (F2 r Hr). rewrite probe_ltb in F2 by (apply Hf2; auto).
    now apply Z.ltb_lt in F2. }
  destruct l1 as [| a l1'] using rev_ind.
  - simpl. split; [discriminate |].
    intros (r & Hr & Hin). specialize (G2 r Hr). lia.
  - clear IHl1'.
    rewrite length_app. simpl.
    replace (Nat.eqb (length l1' + 1) 0) with false
      by (symmetry; apply Nat.eqb_neq; lia).
    replace (length l1' + 1 - 1)%nat with (length l1') by lia.
    rewrite <- app_assoc. rewrite nth_error_app2 by lia.
    rewrite Nat.sub_diag. simpl. rewrite Z.leb_le.
    split.
    + intros Hle. exists a. split.
      * apply in_or_app. right. left. reflexivity.
      * split; auto. apply G1. apply in_or_app. right. left. reflexivity.
    + intros (r & Hr & Hin).
      apply in_app_or in Hr. destruct Hr as [Hr | [<- | Hr]].
      * rewrite <- app_assoc in Hs.
        apply StronglySorted_app_iff in Hs. destruct Hs as (_ & _ & H12).
        specialize (H12 r a Hr (or_introl eq_refl)).
        rewrite Forall_forall in Hf1.
        specialize (Hf1 a (in_or_app _ _ _ (or_intror (in_eq _ _)))).
        lia.
      * lia.
      * specialize (G2 r Hr). lia.
Qed.

(** C6. For every list built by a run of ascending, non-overlapping
    [push_back] calls (in either build) and for every index, [covers]
    returns true if and only if the index lies within [[from, to]] of some
    stored range; the empty list, interval end points and gaps included. *)
Theorem covers_iff_within (l : t) (index : Z) :
  built l ->
  covers l index = true <-> within_some l index.
Proof.
  intros Hb. apply covers_well_formed. apply built_well_formed. exact Hb.
Qed.

Lemma insert_unfold l range :
  insert l range =
    if IN_DEBUG_MODE && IndexRange.isDescending range
    then Throws "IndexRangeList::push_back() range is descending"
    else let r := upper_bound IndexRange.ltb l range in
         Returns (insert_at r range l, r).
Proof.
  unfold insert. destruct l; reflexivity.
Qed.

(** C8, as the code has it. For every list sorted ascending by [(from, to)]
    and every range with [from <= to] (with [from < to] in a build with
    [IN_DEBUG_MODE], whose guard throws for [from >= to]), [insert] returns,
    and the list afterwards holds the previous elements plus the range, is
    again ascending, and has the range at the returned position. *)
Theorem insert_keeps_ascending (l : t) (range : IndexRange.t) :
  ascending IndexRange.ltb l ->
  IndexRange.isAscending range = true ->
  (IN_DEBUG_MODE = true -> IndexRange.from range < IndexRange.to range) ->
  exists l' pos,
    insert l range = Returns (l', pos) /\
    Permutation (range :: l) l' /\
    ascending IndexRange.ltb l' /\
    nth_error l' pos = Some range.
Proof.
  intros Hs Hasc Hdbg.
  rewrite insert_unfold.
  replace (IN_DEBUG_MODE && IndexRange.isDescending range) with false.
  - destruct (insert_at_upper_bound range Hs) as (H1 & H2 & H3).
    cbv zeta. eexists _, _. repeat split; eauto.
  - symmetry. destruct IN_DEBUG_MODE; simpl; auto.
    unfold IndexRange.isDescending. specialize (Hdbg eq_refl).
    rewrite Z.geb_leb. apply Z.leb_gt. lia.
Qed.

(** ** Further properties of the list operations *)

(** X1. Whatever the order of the stored ranges, [covers] answers true only
    for an index that lies within [[from, to]] of a stored range: the
    range it tests is one the search has compared with the index. *)
Theorem covers_sound (l : t) (index : Z) :
  covers l index = true -> within_some l index.
Proof.
  rewrite covers_unfold. cbv zeta. unfold upper_bound.
  set (go_right := fun elem => negb (IndexRange.ltb (IndexRange.mk index (size_t_max w)) elem)).
  destruct (search_loop_last_step go_right l 0 (length l)) as [Hp | (x & Hlt & Hx & Hg)].
  - rewrite Hp. simpl. discriminate.
  - destruct (Nat.eqb _ 0); [discriminate |].
    rewrite Hx. intros Hle. apply Z.leb_le in Hle.
    exists x. split; [eapply nth_error_In; eauto |].
    split; [| exact Hle].
    unfold go_right, IndexRange.ltb in Hg. simpl in Hg.
    apply negb_true_iff, orb_false_iff in Hg. destruct Hg as [Hg _].
    apply Z.ltb_ge in Hg. exact Hg.
Qed.

Lemma push_back_debug_accepts l range l' :
  IN_DEBUG_MODE = true ->
  push_back l range = Returns l' ->
  IndexRange.from range < IndexRange.to range /\
  (forall last, rbegin_elem l = Some last ->
                IndexRange.to last <= IndexRange.from range).
Proof.
  intros Hdbg. unfold push_back. rewrite Hdbg. simpl.
  unfold IndexRange.isDescending.
  destruct (IndexRange.from range >=? IndexRange.to range) eqn:Hd; [discriminate |].
  rewrite Z.geb_leb in Hd. apply Z.leb_gt in Hd.
  destruct (rbegin_elem l) as [last |] eqn:Hl.
  - destruct (IndexRange.to last >? IndexRange.from range) eqn:Ho; [discriminate |].
    intros _. split; [exact Hd |].
    intros last' Hlast. inversion Hlast; subst.
    rewrite Z.gtb_ltb in Ho. apply Z.ltb_ge in Ho. exact Ho.
  - intros _. split; [exact Hd |]. intros last' Hlast. discriminate.
Qed.

Lemma push_back_all_built l ranges l' :
  IN_DEBUG_MODE = true ->
  Forall (fun r => IndexRange.to r <= size_t_max w) ranges ->
  built l ->
  push_back_all l ranges = Returns l' ->
  built l' /\ l' = l ++ ranges.
Proof.
  intros Hdbg. revert l.
  induction ranges as [| range rest IH]; intros l Hmax Hb Hrun; simpl in Hrun.
  - inversion Hrun; subst. rewrite app_nil_r. auto.
  - destruct (push_back l range) as [l1 | what] eqn:Hpush; [| discriminate].
    inversion Hmax as [| ? ? Hm Hrest]; subst.
    destruct (push_back_debug_accepts _ _ Hdbg Hpush) as [Hasc Hord].
    pose proof (push_back_returns _ _ Hpush) as Hl1.
    destruct (IH l1 Hrest) as [Hb' Heq]; auto.
    + eapply built_push_back; eauto.
      unfold IndexRange.isAscending. apply Z.leb_le. lia.
    + split; [exact Hb' |]. rewrite Heq, Hl1, <- app_assoc. reflexivity.
Qed.

(** X2. In a build with [IN_DEBUG_MODE], when every call of a run of
    [push_back] calls on a new list returns, the list holds the ranges in
    call order, is ascending by [(from, to)], and [covers] is exact on it:
    the two checks of [push_back] are all that [covers] relies on. *)
Theorem push_back_all_debug_exact (ranges : list IndexRange.t) (l : t) :
  IN_DEBUG_MODE = true ->
  Forall (fun r => IndexRange.to r <= size_t_max w) ranges ->
  push_back_all [] ranges = Returns l ->
  l = ranges /\
  ascending IndexRange.ltb l /\
  forall index, covers l index = true <-> within_some l index.
Proof.
  intros Hdbg Hmax Hrun.
  destruct (push_back_all_built Hdbg Hmax built_empty Hrun) as [Hb Heq].
  pose proof (built_well_formed Hb) as Hwf.
  split; [exact Heq |]. split.
  - apply well_formed_ascending. exact Hwf.
  - intros index. apply covers_well_formed. exact Hwf.
Qed.

(** X3. In an ascending list [insert] places the range behind every stored
    range that is not greater (ranges equal to it included) and in front of
    every greater one. *)
Theorem insert_position (l : t) (range : IndexRange.t) (l' : t) (pos : nat) :
  ascending IndexRange.ltb l ->
  insert l range = Returns (l', pos) ->
  l' = firstn pos l ++ range :: skipn pos l /\
  Forall (fun r => IndexRange.ltb range r = false) (firstn pos l) /\
  Forall (fun r => IndexRange.ltb range r = true) (skipn pos l).
Proof.
  intros Hs. rewrite insert_unfold.
  destruct (IN_DEBUG_MODE && IndexRange.isDescending range); [discriminate |].
  cbv zeta. intros H. inversion H; subst. clear H.
  destruct (upper_bound_ascending range Hs) as (l1 & l2 & -> & F1 & F2 & ->).
  rewrite firstn_length_app, skipn_app, skipn_all, Nat.sub_diag.
  simpl. rewrite insert_at_split.
  repeat split; auto.
Qed.

Lemma insert_all_sorts ranges : forall l,
  ascending IndexRange.ltb l ->
  (IN_DEBUG_MODE = true ->
   Forall (fun r => IndexRange.from r < IndexRange.to r) ranges) ->
  exists l',
    insert_all l ranges = Returns l' /\
    Permutation (ranges ++ l) l' /\
    ascending IndexRange.ltb l'.
Proof.
  induction ranges as [| range rest IH]; intros l Hs Hdbg.
  - exists l. simpl. repeat split; auto.
  - cbn [insert_all]. rewrite insert_unfold.
    replace (IN_DEBUG_MODE && IndexRange.isDescending range) with false.
    + cbv zeta.
      destruct (insert_at_upper_bound range Hs) as (H1 & H2 & _).
      destruct (IH _ H1) as (l' & Hrun & Hperm & Hasc).
      { intros Hd. specialize (Hdbg Hd). now inversion Hdbg. }
      exists l'. repeat split; auto.
      simpl. eapply Permutation_trans; [apply Permutation_middle |].
      eapply Permutation_trans; [| exact Hperm].
      apply Permutation_app_head. exact H2.
    + symmetry. destruct IN_DEBUG_MODE; simpl; auto.
      specialize (Hdbg eq_refl). inversion Hdbg; subst.
      unfold IndexRange.isDescending. rewrite Z.geb_leb. apply Z.leb_gt. lia.
Qed.

(** X4. A run of [insert] calls on a new list sorts: every call returns
    (in a build with [IN_DEBUG_MODE], provided each range has
    [from < to]), and the list afterwards is a permutation of the ranges
    given, ascending by [(from, to)], in whatever order they came. *)
Theorem insert_all_sorted_permutation (ranges : list IndexRange.t) :
  (IN_DEBUG_MODE = true ->
   Forall (fun r => IndexRange.from r < IndexRange.to r) ranges) ->
  exists l,
    insert_all [] ranges = Returns l /\
    Permutation ranges l /\
    ascending IndexRange.ltb l.
Proof.
  intros Hdbg.
  destruct (@insert_all_sorts ranges []) as (l & Hrun & Hperm & Hasc); auto.
  - constructor.
  - exists l. rewrite app_nil_r in Hperm. auto.
Qed.

(** X5. [erase] at the iterator [insert] returned gives back the list as it
    was before the [insert], and the returned position is that of the
    element that followed; this needs no order on the list. *)
Theorem erase_insert (l : t) (range : IndexRange.t) (l' : t) (pos : nat) :
  insert l range = Returns (l', pos) ->
  erase l' pos = Some (l, pos).
Proof.
  rewrite insert_unfold.
  destruct (IN_DEBUG_MODE && IndexRange.isDescending range); [discriminate |].
  cbv zeta. intros H. inversion H; subst. clear H.
  pose proof (upper_bound_le_length IndexRange.ltb l range) as Hle.
  unfold erase.
  replace (upper_bound IndexRange.ltb l range
           <? length (insert_at (upper_bound IndexRange.ltb l range) range l))%nat
    with true.
  - rewrite insert_at_remove by exact Hle. reflexivity.
  - symmetry. apply Nat.ltb_lt. unfold insert_at.
    rewrite length_app, length_firstn. simpl. rewrite length_skipn. lia.
Qed.

Lemma well_formed_remove l i :
  well_formed l -> well_formed (firstn i l ++ skipn (S i) l).
Proof.
  intros [Hf Hs].
  rewrite <- (firstn_skipn i l) in Hf, Hs.
  apply Forall_app in Hf. destruct Hf as [Hf1 Hf2].
  apply StronglySorted_app_iff in Hs. destruct Hs as (S1 & S2 & H12).
  assert (Hsub : forall x, In x (skipn (S i) l) -> In x (skipn i l)).
  { intros x Hx. replace (S i) with (1 + i)%nat in Hx by lia.
    rewrite <- skipn_skipn in Hx.
    rewrite <- (firstn_skipn 1 (skipn i l)). apply in_or_app. right. exact Hx. }
  split.
  - apply Forall_app. split; auto.
    rewrite Forall_forall in Hf2 |- *. auto.
  - apply StronglySorted_app_iff. repeat split; auto.
    replace (S i) with (1 + i)%nat by lia. rewrite <- skipn_skipn.
    rewrite <- (firstn_skipn 1 (skipn i l)) in S2.
    apply StronglySorted_app_iff in S2. tauto.
Qed.

(** X6. [erase] of a stored range keeps a list built by [push_back] calls
    in the shape [covers] relies on: afterwards [covers] is still exact, and
    every index it reports was covered before. *)
Theorem erase_keeps_covers_exact (l : t) (i : nat) (l' : t) (next : nat) :
  built l ->
  erase l i = Some (l', next) ->
  (forall index, covers l' index = true <-> within_some l' index) /\
  (forall index, covers l' index = true -> covers l index = true).
Proof.
  intros Hb. pose proof (built_well_formed Hb) as Hwf.
  unfold erase. destruct (i <? length l)%nat; [| discriminate].
  intros H. injection H as <- <-.
  pose proof (well_formed_remove i Hwf) as Hwf'.
  split.
  - intros index. apply covers_well_formed. exact Hwf'.
  - intros index Hc.
    apply (covers_well_formed index Hwf).
    apply (covers_well_formed index Hwf') in Hc.
    destruct Hc as (r & Hr & Hin). exists r. split; [| exact Hin].
    rewrite <- (firstn_skipn i l).
    apply in_app_or in Hr. apply in_or_app.
    destruct Hr as [Hr | Hr]; [left; exact Hr | right].
    replace (S i) with (1 + i)%nat in Hr by lia.
    rewrite <- skipn_skipn in Hr.
    rewrite <- (firstn_skipn 1 (skipn i l)). apply in_or_app. right. exact Hr.
Qed.

End WithBuild.

(** ** Concrete runs *)

Ltac built_step :=
  match goal with
  | |- built ?w ?dbg (?l ++ [?r]) =>
    apply (@built_push_back w dbg l r (l ++ [r]));
    [ | reflexivity | vm_compute; discriminate
      | let last := fresh in let H := fresh in
        intros last H; vm_compute in H; inversion H; simpl; lia
      | reflexivity ]
  end.

Lemma example_ranges_built : built 64 false example_ranges.
Proof.
  unfold example_ranges.
  change [IndexRange.mk 0 3; IndexRange.mk 5 9; IndexRange.mk 9 9]
    with ((([] ++ [IndexRange.mk 0 3]) ++ [IndexRange.mk 5 9]) ++ [IndexRange.mk 9 9]).
  repeat built_step. apply built_empty.
Defined.

Example covers_end_points :
  map (covers 64 example_ranges) [0; 3; 4; 5; 9; 10]
  = [true; true; false; true; true; false].
Proof. reflexivity. Qed.

Example covers_empty_list : covers 64 [] 0 = false.
Proof. reflexivity. Qed.

(** with [IN_DEBUG_MODE] the checks of [push_back] accept the first two
    ranges and throw for the single position [(9, 9)] *)
Example push_back_debug_checks :
  push_back true [] (IndexRange.mk 0 3) = Returns [IndexRange.mk 0 3] /\
  push_back true [IndexRange.mk 0 3] (IndexRange.mk 5 9)
    = Returns [IndexRange.mk 0 3; IndexRange.mk 5 9] /\
  push_back true [IndexRange.mk 0 3; IndexRange.mk 5 9] (IndexRange.mk 9 9)
    = Throws "IndexRangeList::push_back() range is descending" /\
  push_back true [IndexRange.mk 0 3; IndexRange.mk 5 9] (IndexRange.mk 4 6)
    = Throws "IndexRangeList::push_back() violates order given last range".
Proof. repeat split. Qed.

Lemma covers_iff_within_witness :
  built 64 false example_ranges /\
  (covers 64 example_ranges 4 = true <-> within_some example_ranges 4).
Proof.
  split.
  - exact example_ranges_built.
  - apply (@covers_iff_within 64 false example_ranges 4).
    exact example_ranges_built.
Defined.

Example insert_in_the_middle :
  insert false example_ranges (IndexRange.mk 4 4)
  = Returns ([IndexRange.mk 0 3; IndexRange.mk 4 4; IndexRange.mk 5 9;
              IndexRange.mk 9 9], 1%nat).
Proof. reflexivity. Qed.

(** In a build with [IN_DEBUG_MODE] the guard of [insert] throws for the
    ascending range [(3,3)]: nothing is inserted. *)
Lemma insert_debug_rejects_single_position :
  ascending IndexRange.ltb [] /\
  IndexRange.isAscending (IndexRange.mk 3 3) = true /\
  ~ exists l' pos, insert true [] (IndexRange.mk 3 3) = Returns (l', pos).
Proof.
  split; [constructor |]. split; [reflexivity |].
  intros (l' & pos & H). discriminate H.
Qed.

Lemma insert_keeps_ascending_witness :
  exists l' pos,
    insert true [IndexRange.mk 5 9] (IndexRange.mk 0 3) = Returns (l', pos) /\
    Permutation [IndexRange.mk 0 3; IndexRange.mk 5 9] l' /\
    ascending IndexRange.ltb l' /\
    nth_error l' pos = Some (IndexRange.mk 0 3).
Proof.
  apply (@insert_keeps_ascending true [IndexRange.mk 5 9] (IndexRange.mk 0 3)).
  - repeat constructor.
  - reflexivity.
  - intros _. simpl. lia.
Defined.

(** ** Runs for the further properties *)

Definition unordered_ranges : t := [IndexRange.mk 5 9; IndexRange.mk 0 3].

Lemma covers_sound_witness :
  covers 64 unordered_ranges 2 = true /\ within_some unordered_ranges 2.
Proof.
  split; [reflexivity |].
  apply (@covers_sound 64 unordered_ranges 2). reflexivity.
Defined.

Example covers_misses_on_unordered_list :
  covers 64 unordered_ranges 6 = false /\ within_some unordered_ranges 6.
Proof.
  split; [reflexivity |].
  exists (IndexRange.mk 5 9). simpl. split; [auto | lia].
Qed.

Lemma push_back_all_debug_exact_witness :
  [IndexRange.mk 0 3; IndexRange.mk 5 9] = [IndexRange.mk 0 3; IndexRange.mk 5 9] /\
  ascending IndexRange.ltb [IndexRange.mk 0 3; IndexRange.mk 5 9] /\
  forall index,
    covers 64 [IndexRange.mk 0 3; IndexRange.mk 5 9] index = true
    <-> within_some [IndexRange.mk 0 3; IndexRange.mk 5 9] index.
Proof.
  apply (@push_back_all_debug_exact 64 true
           [IndexRange.mk 0 3; IndexRange.mk 5 9]
           [IndexRange.mk 0 3; IndexRange.mk 5 9]).
  - reflexivity.
  - repeat constructor; vm_compute; discriminate.
  - reflexivity.
Defined.

Lemma insert_position_witness :
  [IndexRange.mk 0 3; IndexRange.mk 5 9; IndexRange.mk 5 9; IndexRange.mk 9 9]
  = firstn 2 [IndexRange.mk 0 3; IndexRange.mk 5 9; IndexRange.mk 9 9]
    ++ IndexRange.mk 5 9
       :: skipn 2 [IndexRange.mk 0 3; IndexRange.mk 5 9; IndexRange.mk 9 9] /\
  Forall (fun r => IndexRange.ltb (IndexRange.mk 5 9) r = false)
    (firstn 2 [IndexRange.mk 0 3; IndexRange.mk 5 9; IndexRange.mk 9 9]) /\
  Forall (fun r => IndexRange.ltb (IndexRange.mk 5 9) r = true)
    (skipn 2 [IndexRange.mk 0 3; IndexRange.mk 5 9; IndexRange.mk 9 9]).
Proof.
  apply (@insert_position false
           [IndexRange.mk 0 3; IndexRange.mk 5 9; IndexRange.mk 9 9]
           (IndexRange.mk 5 9)
           [IndexRange.mk 0 3; IndexRange.mk 5 9; IndexRange.mk 5 9; IndexRange.mk 9 9]
           2%nat).
  - repeat constructor.
  - reflexivity.
Defined.

Example insert_all_run :
  insert_all true []
    [IndexRange.mk 5 9; IndexRange.mk 0 3; IndexRange.mk 7 8; IndexRange.mk 0 2]
  = Returns [IndexRange.mk 0 2; IndexRange.mk 0 3; IndexRange.mk 5 9; IndexRange.mk 7 8].
Proof. reflexivity. Qed.

Lemma insert_all_sorted_permutation_witness :
  exists l,
    insert_all true []
      [IndexRange.mk 5 9; IndexRange.mk 0 3; IndexRange.mk 7 8; IndexRange.mk 0 2]
    = Returns l /\
    Permutation
      [IndexRange.mk 5 9; IndexRange.mk 0 3; IndexRange.mk 7 8; IndexRange.mk 0 2] l /\
    ascending IndexRange.ltb l.
Proof.
  apply (@insert_all_sorted_permutation true
           [IndexRange.mk 5 9; IndexRange.mk 0 3; IndexRange.mk 7 8; IndexRange.mk 0 2]).
  intros _. repeat constructor.
Defined.

Lemma erase_insert_witness :
  erase [IndexRange.mk 5 9; IndexRange.mk 0 3; IndexRange.mk 7 8] 2
  = Some ([IndexRange.mk 5 9; IndexRange.mk 0 3], 2%nat).
Proof.
  apply (@erase_insert false [IndexRange.mk 5 9; IndexRange.mk 0 3] (IndexRange.mk 7 8)
           [IndexRange.mk 5 9; IndexRange.mk 0 3; IndexRange.mk 7 8] 2%nat).
  reflexivity.
Defined.

Example erase_at_end_undefined : erase example_ranges 3 = None.
Proof. reflexivity. Qed.

Lemma erase_keeps_covers_exact_witness :
  (forall index,
     covers 64 [IndexRange.mk 0 3; IndexRange.mk 9 9] index = true
     <-> within_some [IndexRange.mk 0 3; IndexRange.mk 9 9] index) /\
  (forall index,
     covers 64 [IndexRange.mk 0 3; IndexRange.mk 9 9] index = true ->
     covers 64 example_ranges index = true).
Proof.
  apply (@erase_keeps_covers_exact 64 false example_ranges 1%nat
           [IndexRange.mk 0 3; IndexRange.mk 9 9] 1%nat).
  - exact example_ranges_built.
  - reflexivity.
Defined.

End IndexRangeList.

(* ===================================================================== *)
(** * Energy values and SSE registers *)
(* ===================================================================== *)

Module Energy.

Local Open Scope Z_scope.

(** [general.h], which declares [E_type], [E_INF] and [E_isNotINF], is not
    among the sources; the engine is stated over any energy arithmetic.
    [E_of_Z] reads the literals of the source ([0.0], [1.0], [-1.0]);
    [E_bits] and [E_of_bits] are the 32-bit pattern a value has in a lane of
    an [__m128] register, and the value of a pattern. *)
Class Arith : Type := {
  E_type : Type;
  E_INF : E_type;
  E_isNotINF : E_type -> bool;
  E_of_Z : Z -> E_type;
  Eadd : E_type -> E_type -> E_type;
  Esub : E_type -> E_type -> E_type;
  Emul : E_type -> E_type -> E_type;
  Ediv : E_type -> E_type -> E_type;
  Eopp : E_type -> E_type;
  Eltb : E_type -> E_type -> bool;
  Eeqb : E_type -> E_type -> bool;
  Eexp : E_type -> E_type;
  E_bits : E_type -> Z;
  E_of_bits : Z -> E_type
}.

Section Registers.

Context {EA : Arith}.

(** [std::max(a, b)] is [(a < b) ? b : a]; [std::min(a, b)] is
    [(b < a) ? b : a]. *)
Definition std_max (a b : E_type) : E_type := if Eltb a b then b else a.

Definition std_min (a b : E_type) : E_type := if Eltb b a then b else a.

(** [__m128]: four lanes, each a 32-bit pattern *)
Record __m128 : Type := mk_m128 { ps0 : Z; ps1 : Z; ps2 : Z; ps3 : Z }.

(** [__m128i]: [emmintrin.h] of gcc declares it as [long long] with
    [vector_size (16)], two elements of 64 bits. *)
Record __m128i : Type := mk_m128i { epi64_0 : Z; epi64_1 : Z }.

(** The subscript [v[k]].  The source subscripts its index vectors with [0]
    to [3]: [v[0]] and [v[1]] are the two elements, [v[2]] and [v[3]] lie
    past the end of the vector.  What such a read yields is no function of
    [v]; [past k] stands for it. *)
Definition subscript (past : nat -> Z) (v : __m128i) (k : nat) : Z :=
  match k with
  | 0%nat => epi64_0 v
  | 1%nat => epi64_1 v
  | _ => past k
  end.

(** what the subscripts past the end of the four index arguments of
    [getE_SSE] read *)
Record PastTheEnd : Type := {
  past_i1 : nat -> Z;
  past_j1 : nat -> Z;
  past_i2 : nat -> Z;
  past_j2 : nat -> Z
}.

Definition lanewise (f : Z -> Z -> Z) (a b : __m128) : __m128 :=
  mk_m128 (f (ps0 a) (ps0 b)) (f (ps1 a) (ps1 b))
          (f (ps2 a) (ps2 b)) (f (ps3 a) (ps3 b)).

(** the brace initialiser [{x0, x1, x2, x3}] *)
Definition set_ps (x0 x1 x2 x3 : E_type) : __m128 :=
  mk_m128 (E_bits x0) (E_bits x1) (E_bits x2) (E_bits x3).

Definition all_ones : Z := Z.ones 32.

Definition _mm_add_ps : __m128 -> __m128 -> __m128 :=
  lanewise (fun a b => E_bits (Eadd (E_of_bits a) (E_of_bits b))).

Definition _mm_mul_ps : __m128 -> __m128 -> __m128 :=
  lanewise (fun a b => E_bits (Emul (E_of_bits a) (E_of_bits b))).

Definition _mm_cmpeq_ps : __m128 -> __m128 -> __m128 :=
  lanewise (fun a b => if Eeqb (E_of_bits a) (E_of_bits b) then all_ones else 0).

Definition _mm_and_ps : __m128 -> __m128 -> __m128 := lanewise Z.land.

Definition _mm_andnot_ps : __m128 -> __m128 -> __m128 :=
  lanewise (fun a b => Z.land (Z.lxor a all_ones) b).

Definition _mm_or_ps : __m128 -> __m128 -> __m128 := lanewise Z.lor.

(** lane [k] of a register, [k] in [0..3] *)
Definition lane (k : nat) (r : __m128) : Z :=
  match k with
  | 0%nat => ps0 r
  | 1%nat => ps1 r
  | 2%nat => ps2 r
  | _ => ps3 r
  end.

(** the four values a register holds *)
Definition values (r : __m128) : list E_type :=
  [E_of_bits (ps0 r); E_of_bits (ps1 r); E_of_bits (ps2 r); E_of_bits (ps3 r)].

(** the bitwise select the source ends on:
    [(mask & a) | (~mask & b)] on one lane *)
Definition select_lane (mask a b : Z) : Z :=
  Z.lor (Z.land mask a) (Z.land (Z.lxor mask all_ones) b).

Lemma select_lane_ones a b :
  0 <= a < 2 ^ 32 -> select_lane all_ones a b = a.
Proof.
  intros Ha. unfold select_lane, all_ones.
  rewrite Z.lxor_nilpotent, Z.land_0_l, Z.lor_0_r.
  rewrite Z.land_comm, Z.land_ones by lia.
  apply Z.mod_small. exact Ha.
Qed.

Lemma select_lane_zero a b :
  0 <= b < 2 ^ 32 -> select_lane 0 a b = b.
Proof.
  intros Hb. unfold select_lane, all_ones.
  rewrite Z.land_0_l, Z.lor_0_l, Z.lxor_0_l.
  rewrite Z.land_comm, Z.land_ones by lia.
  apply Z.mod_small. exact Hb.
Qed.

End Registers.

End Energy.

(* ===================================================================== *)
(** * InteractionEnergy ([src/InteractionEnergy.h]) *)
(* ===================================================================== *)

Module InteractionEnergy.

Import Energy.
Local Open Scope Z_scope.

(** [size_t] subtraction and addition wrap modulo [2^w]. *)
Definition size_sub (w a b : Z) : Z := (a - b) mod 2 ^ w.

Definition size_add (w a b : Z) : Z := (a + b) mod 2 ^ w.

(** [seq.size()] of an [RnaSequence], held as its string *)
Definition size (seq : string) : Z := Z.of_nat (String.length seq).

(** [seq.asString().at(i) != c]; [at] throws for [i >= size()], which the
    callers exclude before the call: that case is [false] here. *)
Definition at_differs (seq : string) (i : Z) (c : ascii) : bool :=
  match String.get (Z.to_nat i) seq with
  | Some x => negb (Ascii.eqb x c)
  | None => false
  end.

Section Engine.

Context {EA : Arith}.

Local Infix "+e" := Eadd (at level 50, left associativity).
Local Infix "-e" := Esub (at level 50, left associativity).
Local Infix "*e" := Emul (at level 40, left associativity).

(** width of [size_t] *)
Variable w : Z.

(** what the engine reads of an [Accessibility] *)
Record Accessibility : Type := {
  getSequence : string;
  getED : Z -> Z -> E_type
}.

(** the data members *)
Record InteractionEnergy : Type := {
  accS1 : Accessibility;
  accS2 : Accessibility;
  maxInternalLoopSize1 : Z;
  maxInternalLoopSize2 : Z
}.

(** the pure virtual member functions a concrete energy model supplies *)
Record Model : Type := {
  getEU : Z -> E_type;
  getE_init : E_type;
  getE_interLeft : Z -> Z -> Z -> Z -> E_type;
  getE_danglingLeft : Z -> Z -> E_type;
  getE_danglingRight : Z -> Z -> E_type;
  getE_endLeft : Z -> Z -> E_type;
  getE_endRight : Z -> Z -> E_type;
  getRT : E_type;
  getBestE_interLoop : E_type;
  getBestE_dangling : E_type;
  getBestE_end : E_type
}.

(** [RnaSequence::areComplementary(s1, s2, p1, p2)], outside the sources *)
Variable RnaSequence_areComplementary : string -> string -> Z -> Z -> bool.

Variable self : InteractionEnergy.
Variable model : Model.

(** [InteractionEnergy::isAllowedLoopRegion] *)
Definition isAllowedLoopRegion (seq : string) (i j maxInternalLoopSize : Z) : bool :=
  (i <? size seq)
  && (j <? size seq)
  && at_differs seq i "N"
  && at_differs seq j "N"
  && (i <=? j)
  && (size_sub w j i <=? size_add w 1 maxInternalLoopSize).

(** [InteractionEnergy::areComplementary] *)
Definition areComplementary (i1 i2 : Z) : bool :=
  RnaSequence_areComplementary (getSequence (accS1 self)) (getSequence (accS2 self)) i1 i2.

Definition size1 : Z := size (getSequence (accS1 self)).

Definition size2 : Z := size (getSequence (accS2 self)).

(** [InteractionEnergy::isValidInternalLoop] *)
Definition isValidInternalLoop (i1 j1 i2 j2 : Z) : bool :=
  ((size_sub w j1 i1 >? 0) && (size_sub w j2 i2 >? 0))
  && areComplementary i1 i2
  && areComplementary j1 j2
  && isAllowedLoopRegion (getSequence (accS1 self)) i1 j1 (maxInternalLoopSize1 self)
  && isAllowedLoopRegion (getSequence (accS2 self)) i2 j2 (maxInternalLoopSize2 self).

(** [InteractionEnergy::getBoltzmannWeight]: [std::exp( - e / getRT() )] *)
Definition getBoltzmannWeight (e : E_type) : E_type :=
  Eexp (Ediv (Eopp e) (getRT model)).

Definition getED1 (i1 j1 : Z) : E_type := getED (accS1 self) i1 j1.

Definition getED2 (i2 j2 : Z) : E_type := getED (accS2 self) i2 j2.

(** the clamp [std::max(0.0, std::min(1.0, x))] of the dangling
    probabilities *)
Definition clamp01 (x : E_type) : E_type :=
  std_max (E_of_Z 0) (std_min (E_of_Z 1) x).

(** [InteractionEnergy::getPr_danglingLeft] *)
Definition getPr_danglingLeft (i1 j1 i2 j2 : Z) : E_type :=
  let probDangle1 :=
    if i1 >? 0
    then clamp01 (getBoltzmannWeight (getED1 (size_sub w i1 1) j1 -e getED1 i1 j1))
    else E_of_Z 1 in
  let probDangle2 :=
    if i2 >? 0
    then clamp01 (getBoltzmannWeight (getED2 (size_sub w i2 1) j2 -e getED2 i2 j2))
    else E_of_Z 1 in
  probDangle1 *e probDangle2.

(** [InteractionEnergy::getPr_danglingRight] *)
Definition getPr_danglingRight (i1 j1 i2 j2 : Z) : E_type :=
  let probDangle1 :=
    if size_add w j1 1 <? size1
    then clamp01 (getBoltzmannWeight (getED1 i1 (size_add w j1 1) -e getED1 i1 j1))
    else E_of_Z 1 in
  let probDangle2 :=
    if size_add w j2 1 <? size2
    then clamp01 (getBoltzmannWeight (getED2 i2 (size_add w j2 1) -e getED2 i2 j2))
    else E_of_Z 1 in
  probDangle1 *e probDangle2.

(** [InteractionEnergy::getE] *)
Definition getE (i1 j1 i2 j2 : Z) (hybridE : E_type) : E_type :=
  if E_isNotINF hybridE then
    hybridE
    +e getED1 i1 j1
    +e getED2 i2 j2
    +e (getE_danglingLeft model i1 i2 *e getPr_danglingLeft i1 j1 i2 j2)
    +e (getE_danglingRight model j1 j2 *e getPr_danglingRight i1 j1 i2 j2)
    +e getE_endLeft model i1 i2
    +e getE_endRight model j1 j2
  else E_INF.

(** one value per lane: [{f(v[0]), f(v[1]), f(v[2]), f(v[3])}] *)
Definition per_lane2 (f : Z -> Z -> E_type) (a b : nat -> Z) : __m128 :=
  set_ps (f (a 0%nat) (b 0%nat)) (f (a 1%nat) (b 1%nat))
         (f (a 2%nat) (b 2%nat)) (f (a 3%nat) (b 3%nat)).

Definition per_lane4 (f : Z -> Z -> Z -> Z -> E_type) (a b c d : nat -> Z) : __m128 :=
  set_ps (f (a 0%nat) (b 0%nat) (c 0%nat) (d 0%nat))
         (f (a 1%nat) (b 1%nat) (c 1%nat) (d 1%nat))
         (f (a 2%nat) (b 2%nat) (c 2%nat) (d 2%nat))
         (f (a 3%nat) (b 3%nat) (c 3%nat) (d 3%nat)).

(** what the reads [i1[2]], [i1[3]], [j1[2]], ... of [getE_SSE] yield *)
Variable past : PastTheEnd.

(** the register [result] of [getE_SSE] before the final select *)
Definition getE_SSE_result (i1 j1 i2 j2 : __m128i) : __m128 :=
  let i1 := subscript (past_i1 past) i1 in
  let j1 := subscript (past_j1 past) j1 in
  let i2 := subscript (past_i2 past) i2 in
  let j2 := subscript (past_j2 past) j2 in
  let ed1 := per_lane2 getED1 i1 j1 in
  let ed2 := per_lane2 getED2 i2 j2 in
  let E_danglingLeft := per_lane2 (getE_danglingLeft model) i1 i2 in
  let Pr_danglingLeft := per_lane4 getPr_danglingLeft i1 j1 i2 j2 in
  let E_danglingRight := per_lane2 (getE_danglingRight model) j1 j2 in
  let Pr_danglingRight := per_lane4 getPr_danglingRight i1 j1 i2 j2 in
  let E_endLeft := per_lane2 (getE_endLeft model) i1 i2 in
  let E_endRight := per_lane2 (getE_endRight model) j1 j2 in
  let result := _mm_add_ps (_mm_add_ps (_mm_add_ps ed1 ed2) E_endLeft) E_endRight in
  let resultMultiplication :=
    _mm_add_ps (_mm_mul_ps E_danglingLeft Pr_danglingLeft)
               (_mm_mul_ps E_danglingRight Pr_danglingRight) in
  _mm_add_ps result resultMultiplication.

(** [InteractionEnergy::getE_SSE] *)
Definition getE_SSE (i1 j1 i2 j2 : __m128i) (hybridE : __m128) : __m128 :=
  let inf := set_ps E_INF E_INF E_INF E_INF in
  let result := getE_SSE_result i1 j1 i2 j2 in
  let infCompare := _mm_cmpeq_ps hybridE inf in
  _mm_or_ps (_mm_and_ps infCompare inf) (_mm_andnot_ps infCompare result).

(** ** Following the words of the specification *)

(** the condition the specification (and the comment on the declaration in
    the header) gives for a valid internal loop *)
Definition valid_internal_loop_spec (i1 j1 i2 j2 : Z) : Prop :=
  areComplementary i1 i2 = true /\
  areComplementary j1 j2 = true /\
  isAllowedLoopRegion (getSequence (accS1 self)) i1 j1 (maxInternalLoopSize1 self) = true /\
  isAllowedLoopRegion (getSequence (accS2 self)) i2 j2 (maxInternalLoopSize2 self) = true /\
  ((j1 - i1 = 0 /\ j2 - i2 = 0) \/ (j1 - i1 > 0 /\ j2 - i2 > 0)).

(** ** Loop regions and internal loops *)

Lemma isAllowedLoopRegion_ascending seq i j maxInternalLoopSize :
  isAllowedLoopRegion seq i j maxInternalLoopSize = true -> i <= j.
Proof.
  unfold isAllowedLoopRegion. intros H.
  repeat (apply andb_true_iff in H; destruct H as [H ?]).
  apply Z.leb_le. assumption.
Qed.

(** The first test of [isValidInternalLoop] does not see a descending
    span: for [0 <= j < i < 2^w] the unsigned difference [j - i] wraps to a
    positive value. *)
Lemma size_sub_descending_positive i j :
  0 <= j -> j < i -> i < 2 ^ w -> size_sub w j i > 0.
Proof.
  intros Hj Hji Hi. unfold size_sub.
  replace (j - i) with ((j - i + 2 ^ w) + (-1) * 2 ^ w) by ring.
  rewrite Z.mod_add by lia. rewrite Z.mod_small; lia.
Qed.

Lemma isValidInternalLoop_descending i1 j1 i2 j2 :
  j1 < i1 \/ j2 < i2 -> isValidInternalLoop i1 j1 i2 j2 = false.
Proof.
  intros Hdesc. unfold isValidInternalLoop.
  destruct (isAllowedLoopRegion (getSequence (accS1 self)) i1 j1
              (maxInternalLoopSize1 self)) eqn:A1;
    [| now rewrite andb_false_r ].
  destruct (isAllowedLoopRegion (getSequence (accS2 self)) i2 j2
              (maxInternalLoopSize2 self)) eqn:A2;
    [| now rewrite andb_false_r ].
  apply isAllowedLoopRegion_ascending in A1, A2. lia.
Qed.

(** Both spans of zero width: the first test [(j1-i1>0 && j2-i2>0)] fails
    whatever the sequences are. *)
Lemma isValidInternalLoop_zero_width i1 i2 :
  isValidInternalLoop i1 i1 i2 i2 = false.
Proof.
  unfold isValidInternalLoop, size_sub.
  rewrite !Z.sub_diag, Zmod_0_l. reflexivity.
Qed.

(** X9. What [isValidInternalLoop] accepts, for indices of type [size_t]
    into sequences whose length fits [size_t]: complementary end pairs,
    two allowed loop regions, and both spans strictly positive. *)
Lemma isValidInternalLoop_true_iff i1 j1 i2 j2 :
  0 <= i1 -> 0 <= i2 -> size1 <= 2 ^ w -> size2 <= 2 ^ w ->
  isValidInternalLoop i1 j1 i2 j2 = true <->
  areComplementary i1 i2 = true /\
  areComplementary j1 j2 = true /\
  isAllowedLoopRegion (getSequence (accS1 self)) i1 j1 (maxInternalLoopSize1 self) = true /\
  isAllowedLoopRegion (getSequence (accS2 self)) i2 j2 (maxInternalLoopSize2 self) = true /\
  (j1 - i1 > 0 /\ j2 - i2 > 0).
Proof.
  intros H1 H2 Hs1 Hs2. unfold isValidInternalLoop.
  rewrite !andb_true_iff.
  assert (Hsub : forall seq i j m, 0 <= i -> size seq <= 2 ^ w ->
            isAllowedLoopRegion seq i j m = true ->
            (size_sub w j i >? 0) = true <-> j - i > 0).
  { intros seq i j m Hi Hs Ha.
    pose proof (isAllowedLoopRegion_ascending _ _ _ _ Ha) as Hij.
    unfold isAllowedLoopRegion in Ha.
    repeat (apply andb_true_iff in Ha; destruct Ha as [Ha ?]).
    repeat match goal with H : (_ <? _) = true |- _ => apply Z.ltb_lt in H end.
    unfold size_sub. rewrite Z.mod_small by lia.
    rewrite Z.gtb_ltb, Z.ltb_lt. lia. }
  split.
  - intros [[[[[P1 P2] C1] C2] A1] A2].
    pose proof (proj1 (Hsub _ _ _ _ H1 Hs1 A1) P1).
    pose proof (proj1 (Hsub _ _ _ _ H2 Hs2 A2) P2).
    repeat split; auto.
  - intros (C1 & C2 & A1 & A2 & P1 & P2).
    pose proof (proj2 (Hsub _ _ _ _ H1 Hs1 A1) P1).
    pose proof (proj2 (Hsub _ _ _ _ H2 Hs2 A2) P2).
    repeat split; auto.
Qed.

(** ** The overall energy *)

(** C5. [getE] returns the infinite sentinel when [hybridE] is the infinite
    sentinel, and otherwise the sum of [hybridE], the two accessibility
    penalties, the two dangling-end energies each multiplied by its
    probability, and the two end penalties.  The probabilities are those
    of [getPr_danglingLeft] and [getPr_danglingRight], written out: for
    each sequence the Boltzmann weight [exp(-(ED(extended) - ED(region))/RT)]
    of the accessibility difference, clamped to [[0, 1]], or [1] where the
    region ends the sequence; the two sequences multiplied.  [E_isNotINF]
    (declared in [general.h]) is taken to tell the sentinel from the other
    values. *)
Theorem getE_infinite_or_sum (i1 j1 i2 j2 : Z) (hybridE : E_type) :
  E_isNotINF E_INF = false ->
  (hybridE <> E_INF -> E_isNotINF hybridE = true) ->
  let unpaired (ED_extended ED_region : E_type) : E_type :=
    std_max (E_of_Z 0)
      (std_min (E_of_Z 1)
         (Eexp (Ediv (Eopp (ED_extended -e ED_region)) (getRT model)))) in
  let Pr_left :=
    (if i1 >? 0
     then unpaired (getED (accS1 self) (size_sub w i1 1) j1) (getED (accS1 self) i1 j1)
     else E_of_Z 1)
    *e
    (if i2 >? 0
     then unpaired (getED (accS2 self) (size_sub w i2 1) j2) (getED (accS2 self) i2 j2)
     else E_of_Z 1) in
  let Pr_right :=
    (if size_add w j1 1 <? size (getSequence (accS1 self))
     then unpaired (getED (accS1 self) i1 (size_add w j1 1)) (getED (accS1 self) i1 j1)
     else E_of_Z 1)
    *e
    (if size_add w j2 1 <? size (getSequence (accS2 self))
     then unpaired (getED (accS2 self) i2 (size_add w j2 1)) (getED (accS2 self) i2 j2)
     else E_of_Z 1) in
  getPr_danglingLeft i1 j1 i2 j2 = Pr_left /\
  getPr_danglingRight i1 j1 i2 j2 = Pr_right /\
  (hybridE = E_INF -> getE i1 j1 i2 j2 hybridE = E_INF) /\
  (hybridE <> E_INF ->
   getE i1 j1 i2 j2 hybridE =
     hybridE
     +e getED (accS1 self) i1 j1
     +e getED (accS2 self) i2 j2
     +e (getE_danglingLeft model i1 i2 *e Pr_left)
     +e (getE_danglingRight model j1 j2 *e Pr_right)
     +e getE_endLeft model i1 i2
     +e getE_endRight model j1 j2).
Proof.
  intros Hinf Hfin. cbv zeta.
  split; [reflexivity |]. split; [reflexivity |].
  unfold getE. split.
  - intros ->. rewrite Hinf. reflexivity.
  - intros Hne. rewrite (Hfin Hne). reflexivity.
Qed.

(** At the left end of both sequences there is no flanking position: the
    dangling probability is the product of the two initial values [1.0]. *)
Lemma getPr_danglingLeft_at_ends j1 j2 :
  getPr_danglingLeft 0 j1 0 j2 = E_of_Z 1 *e E_of_Z 1.
Proof. reflexivity. Qed.

(** ** The vectorised path *)

(** [hybridE] enters [getE_SSE] through the comparison with [E_INF] only:
    two registers with the same infinite lanes give the same result. *)
Lemma getE_SSE_hybridE_only_compared i1 j1 i2 j2 hybridE hybridE' :
  _mm_cmpeq_ps hybridE (set_ps E_INF E_INF E_INF E_INF)
  = _mm_cmpeq_ps hybridE' (set_ps E_INF E_INF E_INF E_INF) ->
  getE_SSE i1 j1 i2 j2 hybridE = getE_SSE i1 j1 i2 j2 hybridE'.
Proof.
  intros H. unfold getE_SSE. cbv zeta. rewrite H. reflexivity.
Qed.

Lemma getE_SSE_result_bits i1 j1 i2 j2 k :
  (forall e, 0 <= E_bits e < 2 ^ 32) ->
  0 <= lane k (getE_SSE_result i1 j1 i2 j2) < 2 ^ 32.
Proof.
  intros Hb. unfold getE_SSE_result, _mm_add_ps, lanewise. cbv zeta.
  destruct k as [| [| [| k]]]; simpl; apply Hb.
Qed.

(** The select at the end of [getE_SSE], lane by lane: a lane whose
    [hybridE] compares equal to [E_INF] holds [E_INF], every other lane
    holds its lane of [result]. *)
Lemma getE_SSE_select i1 j1 i2 j2 hybridE k :
  (forall e, 0 <= E_bits e < 2 ^ 32) ->
  lane k (getE_SSE i1 j1 i2 j2 hybridE) =
    if Eeqb (E_of_bits (lane k hybridE)) (E_of_bits (E_bits E_INF))
    then E_bits E_INF
    else lane k (getE_SSE_result i1 j1 i2 j2).
Proof.
  intros Hb.
  pose proof (getE_SSE_result_bits i1 j1 i2 j2 k Hb) as Hr.
  assert (Hsel : lane k (getE_SSE i1 j1 i2 j2 hybridE) =
            select_lane
              (if Eeqb (E_of_bits (lane k hybridE)) (E_of_bits (E_bits E_INF))
               then all_ones else 0)
              (E_bits E_INF) (lane k (getE_SSE_result i1 j1 i2 j2))).
  { destruct k as [| [| [| k]]]; reflexivity. }
  rewrite Hsel.
  destruct (Eeqb _ _).
  - apply select_lane_ones. apply Hb.
  - apply select_lane_zero. exact Hr.
Qed.

(** ** Further properties of the loop checks *)

Lemma get_in_range (s : string) : forall n,
  (n < String.length s)%nat -> exists c, String.get n s = Some c.
Proof.
  induction s as [| a s IH]; intros n Hn; simpl in Hn; [lia |].
  destruct n as [| n]; simpl.
  - exists a. reflexivity.
  - apply IH. lia.
Qed.

Lemma at_differs_iff seq i c :
  0 <= i < size seq ->
  at_differs seq i c = true <-> String.get (Z.to_nat i) seq <> Some c.
Proof.
  intros Hi. unfold at_differs.
  destruct (get_in_range seq (n:=Z.to_nat i)) as (x & Hx).
  { unfold size in Hi. lia. }
  rewrite Hx, negb_true_iff, Ascii.eqb_neq.
  split; intros H; congruence.
Qed.

(** X7. [isAllowedLoopRegion] without the machine arithmetic: for a
    [size_t] index [i], a sequence whose length fits [size_t] and a bound
    below [SIZE_MAX], it holds exactly when [i <= j < size], neither base is
    the ambiguous [N], and [j - i <= 1 + maxInternalLoopSize]. *)
Theorem isAllowedLoopRegion_iff (seq : string) (i j maxInternalLoopSize : Z) :
  0 <= i -> size seq <= 2 ^ w ->
  0 <= maxInternalLoopSize < size_t_max w ->
  isAllowedLoopRegion seq i j maxInternalLoopSize = true <->
  i <= j < size seq /\
  String.get (Z.to_nat i) seq <> Some "N"%char /\
  String.get (Z.to_nat j) seq <> Some "N"%char /\
  j - i <= 1 + maxInternalLoopSize.
Proof.
  intros Hi Hs Hm. unfold size_t_max in Hm.
  unfold isAllowedLoopRegion.
  rewrite !andb_true_iff, !Z.ltb_lt, !Z.leb_le.
  assert (Hadd : size_add w 1 maxInternalLoopSize = 1 + maxInternalLoopSize)
    by (unfold size_add; apply Z.mod_small; lia).
  rewrite Hadd.
  split.
  - intros [[[[[H1 H2] N1] N2] Hij] Hloop].
    unfold size_sub in Hloop. rewrite Z.mod_small in Hloop by lia.
    apply at_differs_iff in N1; [| lia].
    apply at_differs_iff in N2; [| lia].
    repeat split; auto; lia.
  - intros ([Hij Hj] & N1 & N2 & Hloop).
    unfold size_sub. rewrite Z.mod_small by lia.
    repeat split; try lia.
    + apply at_differs_iff; [lia | exact N1].
    + apply at_differs_iff; [lia | exact N2].
Qed.

(** X8. The bound wraps: with [maxInternalLoopSize1] or
    [maxInternalLoopSize2] at [SIZE_MAX], [1 + maxInternalLoopSize] is [0],
    the region of that sequence is allowed for [j = i] only, and no
    internal loop is valid at all. *)
Theorem isValidInternalLoop_unbounded_size (i1 j1 i2 j2 : Z) :
  maxInternalLoopSize1 self = size_t_max w \/
  maxInternalLoopSize2 self = size_t_max w ->
  isValidInternalLoop i1 j1 i2 j2 = false.
Proof.
  intros Hmax.
  assert (Hwrap : size_add w 1 (size_t_max w) = 0).
  { unfold size_add, size_t_max.
    replace (1 + (2 ^ w - 1)) with (2 ^ w) by ring. apply Z_mod_same_full. }
  destruct (isValidInternalLoop i1 j1 i2 j2) eqn:Hv; [| reflexivity].
  exfalso. unfold isValidInternalLoop, isAllowedLoopRegion in Hv.
  repeat (apply andb_true_iff in Hv; destruct Hv as [Hv ?]).
  repeat match goal with
         | H : _ && _ = true |- _ => apply andb_true_iff in H; destruct H
         end.
  repeat match goal with
         | H : (_ <=? _) = true |- _ => apply Z.leb_le in H
         | H : (_ >? _) = true |- _ => rewrite Z.gtb_ltb in H; apply Z.ltb_lt in H
         end.
  destruct Hmax as [Hm | Hm]; rewrite Hm, Hwrap in *; lia.
Qed.

(** X11. The select at the end of [getE_SSE], in values: a lane whose
    [hybridE] compares equal to [E_INF] holds [E_INF]; a lane whose
    [hybridE] does not holds its lane of the register [result], which is
    computed without [hybridE].  Lanes do not influence one another. *)
Theorem getE_SSE_lanes (i1 j1 i2 j2 : __m128i) (hybridE : __m128) (k : nat) :
  (forall e, 0 <= E_bits e < 2 ^ 32) ->
  E_of_bits (E_bits E_INF) = E_INF ->
  (Eeqb (E_of_bits (lane k hybridE)) E_INF = true ->
   E_of_bits (lane k (getE_SSE i1 j1 i2 j2 hybridE)) = E_INF) /\
  (Eeqb (E_of_bits (lane k hybridE)) E_INF = false ->
   lane k (getE_SSE i1 j1 i2 j2 hybridE) = lane k (getE_SSE_result i1 j1 i2 j2)).
Proof.
  intros Hbits Hinf.
  rewrite getE_SSE_select by exact Hbits. rewrite Hinf.
  split; intros ->; [exact Hinf | reflexivity].
Qed.

End Engine.

End InteractionEnergy.

(* ===================================================================== *)
(** * InteractionEnergyBasePair ([src/InteractionEnergyBasePair.h]) *)
(* ===================================================================== *)

Module InteractionEnergyBasePair.

Import Energy.
Local Open Scope Z_scope.

Section BasePair.

Context {EA : Arith}.

Variable w : Z.
Variable RnaSequence_areComplementary : string -> string -> Z -> Z -> bool.
Variable self : InteractionEnergy.InteractionEnergy.

Definition isValidInternalLoop : Z -> Z -> Z -> Z -> bool :=
  InteractionEnergy.isValidInternalLoop w RnaSequence_areComplementary self.

Definition getEU (numUnpaired : Z) : E_type := E_of_Z 0.

Definition getE_init : E_type := E_of_Z (-1).

Definition getBestE_interLoop : E_type := getE_init.

Definition getE_interLeft (i1 j1 i2 j2 : Z) : E_type :=
  if isValidInternalLoop i1 j1 i2 j2
  then getBestE_interLoop
  else E_INF.

Definition getE_danglingLeft (i1 i2 : Z) : E_type := E_of_Z 0.

Definition getE_danglingRight (j1 j2 : Z) : E_type := E_of_Z 0.

Definition getE_endLeft (i1 i2 : Z) : E_type := E_of_Z 0.

Definition getE_endRight (j1 j2 : Z) : E_type := E_of_Z 0.

Definition getRT : E_type := E_of_Z 1.

Definition getBestE_dangling : E_type := E_of_Z 0.

Definition getBestE_end : E_type := E_of_Z 0.

(** the class as an implementation of the engine's virtual functions *)
Definition model : InteractionEnergy.Model := {|
  InteractionEnergy.getEU := getEU;
  InteractionEnergy.getE_init := getE_init;
  InteractionEnergy.getE_interLeft := getE_interLeft;
  InteractionEnergy.getE_danglingLeft := getE_danglingLeft;
  InteractionEnergy.getE_danglingRight := getE_danglingRight;
  InteractionEnergy.getE_endLeft := getE_endLeft;
  InteractionEnergy.getE_endRight := getE_endRight;
  InteractionEnergy.getRT := getRT;
  InteractionEnergy.getBestE_interLoop := getBestE_interLoop;
  InteractionEnergy.getBestE_dangling := getBestE_dangling;
  InteractionEnergy.getBestE_end := getBestE_end
|}.

(** the inherited [getE] and [getE_SSE] *)
Definition getE : Z -> Z -> Z -> Z -> E_type -> E_type :=
  InteractionEnergy.getE w self model.

Definition getE_SSE (past : PastTheEnd)
  : __m128i -> __m128i -> __m128i -> __m128i -> __m128 -> __m128 :=
  InteractionEnergy.getE_SSE w self model past.

(** C3. For every index combination, [getE_interLeft] returns [-1] exactly
    when [isValidInternalLoop] holds and the infinite sentinel exactly when
    it does not ([-1] and the sentinel being different energies). *)
Theorem getE_interLeft_valid_iff (i1 j1 i2 j2 : Z) :
  E_of_Z (-1) <> E_INF ->
  (getE_interLeft i1 j1 i2 j2 = E_of_Z (-1)
   <-> isValidInternalLoop i1 j1 i2 j2 = true) /\
  (getE_interLeft i1 j1 i2 j2 = E_INF
   <-> isValidInternalLoop i1 j1 i2 j2 = false).
Proof.
  intros Hne. unfold getE_interLeft, getBestE_interLoop, getE_init.
  destruct (isValidInternalLoop i1 j1 i2 j2); split; split;
    try reflexivity; try discriminate; intros H; congruence.
Qed.

(** C10. A descending span ([j1 < i1] or [j2 < i2]) is no valid internal
    loop and [getE_interLeft] returns the infinite sentinel for it: the
    unsigned differences wrap to positive values, and the test [i <= j] of
    [isAllowedLoopRegion] rejects the span. *)
Theorem getE_interLeft_descending (i1 j1 i2 j2 : Z) :
  j1 < i1 \/ j2 < i2 ->
  isValidInternalLoop i1 j1 i2 j2 = false /\
  getE_interLeft i1 j1 i2 j2 = E_INF.
Proof.
  intros Hdesc.
  assert (Hv : isValidInternalLoop i1 j1 i2 j2 = false)
    by (apply InteractionEnergy.isValidInternalLoop_descending; exact Hdesc).
  split; [exact Hv |].
  unfold getE_interLeft. rewrite Hv. reflexivity.
Qed.

End BasePair.

End InteractionEnergyBasePair.

(* ===================================================================== *)
(** * Single-precision energies *)
(* ===================================================================== *)

Module Binary32.

Local Open Scope Z_scope.

(** IEEE 754 binary32, the lane format of [__m128]: 24 bits of precision,
    exponents below 128, rounding to nearest even. *)
Definition prec : Z := 24.
Definition emax : Z := 128.

Definition of_Z (z : Z) : spec_float := binary_normalize prec emax z 0 false.

Definition infinity : spec_float := S754_infinity false.

(** Modelled from the spec: [E_isNotINF] is declared in [general.h], not
    among the sources; the spec asks for a predicate that tells the
    infinite sentinel from the other values. *)
Definition isNotINF (e : spec_float) : bool :=
  match e with
  | S754_infinity false => false
  | _ => true
  end.

(** [std::exp] for this arithmetic.  At the infinities, at zero and at NaN
    it is what IEEE 754 and the C library give ([exp(-inf) = 0],
    [exp(+inf) = +inf], [exp(0) = 1]); at the other arguments it is the
    power series cut after twelve terms, in Horner form.  The C library is
    not modelled: no run below depends on the value at such an argument. *)
Definition exp_series (x : spec_float) : spec_float :=
  fold_right
    (fun k acc => SFadd prec emax (of_Z 1)
                    (SFmul prec emax (SFdiv prec emax x (of_Z k)) acc))
    (of_Z 1) [1; 2; 3; 4; 5; 6; 7; 8; 9; 10; 11; 12].

Definition exp (x : spec_float) : spec_float :=
  match x with
  | S754_nan => S754_nan
  | S754_infinity false => S754_infinity false
  | S754_infinity true => S754_zero false
  | S754_zero _ => of_Z 1
  | S754_finite _ _ _ => exp_series x
  end.

Definition sign_bit (s : bool) : Z := if s then 2 ^ 31 else 0.

(** the 32-bit encoding: sign, 8 bits of biased exponent, 23 bits of
    fraction *)
Definition bits (f : spec_float) : Z :=
  Z.land
    match f with
    | S754_zero s => sign_bit s
    | S754_infinity s => sign_bit s + 255 * 2 ^ 23
    | S754_nan => 255 * 2 ^ 23 + 2 ^ 22
    | S754_finite s m e =>
      sign_bit s +
      (if Zpos m <? 2 ^ 23 then Zpos m
       else (e + 150) * 2 ^ 23 + (Zpos m - 2 ^ 23))
    end
    (Z.ones 32).

Definition of_bits (z : Z) : spec_float :=
  let s := Z.testbit z 31 in
  let biased := Z.land (Z.shiftr z 23) 255 in
  let fraction := Z.land z (Z.ones 23) in
  if biased =? 255 then
    if fraction =? 0 then S754_infinity s else S754_nan
  else if biased =? 0 then
    match fraction with
    | Zpos m => S754_finite s m (-149)
    | _ => S754_zero s
    end
  else
    match fraction + 2 ^ 23 with
    | Zpos m => S754_finite s m (biased - 150)
    | _ => S754_nan
    end.

#[global] Instance arith : Energy.Arith := {|
  Energy.E_type := spec_float;
  Energy.E_INF := infinity;
  Energy.E_isNotINF := isNotINF;
  Energy.E_of_Z := of_Z;
  Energy.Eadd := SFadd prec emax;
  Energy.Esub := SFsub prec emax;
  Energy.Emul := SFmul prec emax;
  Energy.Ediv := SFdiv prec emax;
  Energy.Eopp := SFopp;
  Energy.Eltb := SFltb;
  Energy.Eeqb := SFeqb;
  Energy.Eexp := exp;
  Energy.E_bits := bits;
  Energy.E_of_bits := of_bits
|}.

Lemma bits_range (f : spec_float) : 0 <= bits f < 2 ^ 32.
Proof.
  unfold bits. rewrite Z.land_ones by lia. apply Z.mod_pos_bound. lia.
Qed.

Example bits_one : bits (of_Z 1) = 0x3f800000.
Proof. reflexivity. Qed.

Example bits_minus_one : bits (of_Z (-1)) = 0xbf800000.
Proof. reflexivity. Qed.

Example bits_infinity : bits infinity = 0x7f800000.
Proof. reflexivity. Qed.

Example of_bits_bits :
  map (fun f => of_bits (bits f))
      [of_Z 0; of_Z 1; of_Z (-3); infinity; S754_nan;
       SFdiv prec emax (of_Z 1) (of_Z 3)]
  = [of_Z 0; of_Z 1; of_Z (-3); infinity; S754_nan;
     SFdiv prec emax (of_Z 1) (of_Z 3)].
Proof. vm_compute. reflexivity. Qed.

End Binary32.

(* ===================================================================== *)
(** * Runs of the base-pair model in single precision *)
(* ===================================================================== *)

Module EnergyRuns.

Import Energy.
Local Open Scope Z_scope.
Local Open Scope string_scope.

(** The pairing rule the runs use for [RnaSequence::areComplementary]
    (which is outside the sources): Watson-Crick and G-U pairs. *)
Definition base_pair (a b : ascii) : bool :=
  match a, b with
  | "A", "U" | "U", "A" | "G", "C" | "C", "G" | "G", "U" | "U", "G" => true
  | _, _ => false
  end%char.

Definition areComplementary (s1 s2 : string) (i1 i2 : Z) : bool :=
  match String.get (Z.to_nat i1) s1, String.get (Z.to_nat i2) s2 with
  | Some a, Some b => base_pair a b
  | _, _ => false
  end.

(** two sequences of five bases with accessibility penalties that grow
    with the length of the region *)
Definition acc1 : InteractionEnergy.Accessibility :=
  {| InteractionEnergy.getSequence := "GANCG";
     InteractionEnergy.getED := fun i j => Binary32.of_Z (j - i + 1) |}.

Definition acc2 : InteractionEnergy.Accessibility :=
  {| InteractionEnergy.getSequence := "CUAGC";
     InteractionEnergy.getED := fun i j => Binary32.of_Z (2 * (j - i)) |}.

Definition energy : InteractionEnergy.InteractionEnergy :=
  {| InteractionEnergy.accS1 := acc1;
     InteractionEnergy.accS2 := acc2;
     InteractionEnergy.maxInternalLoopSize1 := 16;
     InteractionEnergy.maxInternalLoopSize2 := 16 |}.

Definition isValidInternalLoop : Z -> Z -> Z -> Z -> bool :=
  InteractionEnergyBasePair.isValidInternalLoop 64 areComplementary energy.

Definition getE_interLeft : Z -> Z -> Z -> Z -> E_type :=
  InteractionEnergyBasePair.getE_interLeft 64 areComplementary energy.

Definition getE : Z -> Z -> Z -> Z -> E_type -> E_type :=
  InteractionEnergyBasePair.getE 64 areComplementary energy.

Definition getE_SSE (past : PastTheEnd)
  : __m128i -> __m128i -> __m128i -> __m128i -> __m128 -> __m128 :=
  InteractionEnergyBasePair.getE_SSE 64 areComplementary energy past.

(** Two candidates [(i1, j1, i2, j2, hybridE)] in the two elements of the
    index vectors: [(0,1,0,1,-1)] and [(0,4,0,4,-4)].  The register of
    hybridization energies has four lanes; its lanes 2 and 3 hold [-3] and
    [E_INF]. *)
Definition lanes_i1 : __m128i := mk_m128i 0 0.
Definition lanes_j1 : __m128i := mk_m128i 1 4.
Definition lanes_i2 : __m128i := mk_m128i 0 0.
Definition lanes_j2 : __m128i := mk_m128i 1 4.
Definition lanes_hybridE : __m128 :=
  set_ps (E_of_Z (-1)) (E_of_Z (-4)) (E_of_Z (-3)) E_INF.

(** reads past the end that find zeros *)
Definition past_zero : PastTheEnd :=
  {| past_i1 := fun _ => 0; past_j1 := fun _ => 0;
     past_i2 := fun _ => 0; past_j2 := fun _ => 0 |}.

(** C1, on the two candidates above, whatever the reads past the end of the
    index vectors find.  The scalar [getE] returns 3 and 9; lanes 0 and 1
    of [getE_SSE] hold 4 and 13: the vector result lacks the term
    [hybridE].  Lane 3, whose [hybridE] is the infinite sentinel, holds the
    sentinel.  Lanes 2 and 3 take their indices from [i1[2]], [i1[3]], ...,
    which an [__m128i] of two elements does not have. *)
Theorem getE_SSE_omits_hybridE (past : PastTheEnd) :
  [ getE 0 1 0 1 (E_of_Z (-1)); getE 0 4 0 4 (E_of_Z (-4)) ]
  = [ E_of_Z 3; E_of_Z 9 ]
  /\
  [ E_of_bits (lane 0 (getE_SSE past lanes_i1 lanes_j1 lanes_i2 lanes_j2 lanes_hybridE));
    E_of_bits (lane 1 (getE_SSE past lanes_i1 lanes_j1 lanes_i2 lanes_j2 lanes_hybridE)) ]
  = [ E_of_Z 4; E_of_Z 13 ]
  /\
  E_of_bits (lane 3 (getE_SSE past lanes_i1 lanes_j1 lanes_i2 lanes_j2 lanes_hybridE))
  = E_INF.
Proof.
  split; [vm_compute; reflexivity |].
  split; [vm_compute; reflexivity |].
  unfold getE_SSE, InteractionEnergyBasePair.getE_SSE.
  rewrite InteractionEnergy.getE_SSE_select by apply Binary32.bits_range.
  reflexivity.
Qed.

(** In single precision the select of [getE_SSE] reads, for every lane:
    a lane whose [hybridE] equals the sentinel holds the sentinel, any
    other lane holds the sum computed without [hybridE]. *)
Lemma getE_SSE_lane past i1 j1 i2 j2 hybridE k :
  lane k (getE_SSE past i1 j1 i2 j2 hybridE) =
    if SFeqb (Binary32.of_bits (lane k hybridE)) Binary32.infinity
    then Binary32.bits Binary32.infinity
    else lane k (InteractionEnergy.getE_SSE_result 64 energy
                   (InteractionEnergyBasePair.model 64 areComplementary energy)
                   past i1 j1 i2 j2).
Proof.
  unfold getE_SSE, InteractionEnergyBasePair.getE_SSE.
  rewrite InteractionEnergy.getE_SSE_select by apply Binary32.bits_range.
  reflexivity.
Qed.

(** the same run with other finite hybridization energies: the vector
    result does not change *)
Example getE_SSE_same_for_other_hybridE :
  getE_SSE past_zero lanes_i1 lanes_j1 lanes_i2 lanes_j2
    (set_ps (E_of_Z 0) (E_of_Z 100) (E_of_Z (-7)) E_INF)
  = getE_SSE past_zero lanes_i1 lanes_j1 lanes_i2 lanes_j2 lanes_hybridE.
Proof. vm_compute. reflexivity. Qed.

(** C2, at the loop of zero width closed by the pair G-C at position 0 of
    both sequences: the condition of the specification (and of the comment
    in the header) holds, [isValidInternalLoop] returns false. *)
Theorem isValidInternalLoop_rejects_zero_width :
  InteractionEnergy.valid_internal_loop_spec 64 areComplementary energy 0 0 0 0
  /\ isValidInternalLoop 0 0 0 0 = false.
Proof.
  split; [| reflexivity].
  unfold InteractionEnergy.valid_internal_loop_spec.
  repeat split; try reflexivity.
  left. split; reflexivity.
Qed.

Example isValidInternalLoop_stacking : isValidInternalLoop 0 1 0 1 = true.
Proof. reflexivity. Qed.

Example isValidInternalLoop_ambiguous_base : isValidInternalLoop 1 2 1 2 = false.
Proof. reflexivity. Qed.

Example getE_interLeft_runs :
  [ getE_interLeft 0 1 0 1; getE_interLeft 0 0 0 0; getE_interLeft 1 0 1 0;
    getE_interLeft 0 4 0 4; getE_interLeft 0 4 0 1 ]
  = [ E_of_Z (-1); E_INF; E_INF; E_of_Z (-1); E_of_Z (-1) ].
Proof. vm_compute. reflexivity. Qed.

Lemma getE_interLeft_valid_iff_witness :
  (getE_interLeft 0 1 0 1 = E_of_Z (-1) <-> isValidInternalLoop 0 1 0 1 = true) /\
  (getE_interLeft 0 1 0 1 = E_INF <-> isValidInternalLoop 0 1 0 1 = false).
Proof.
  apply (@InteractionEnergyBasePair.getE_interLeft_valid_iff
           Binary32.arith 64 areComplementary energy 0 1 0 1).
  vm_compute. discriminate.
Defined.

Lemma getE_interLeft_descending_witness :
  InteractionEnergy.size_sub 64 0 1 = 2 ^ 64 - 1 /\
  isValidInternalLoop 1 0 0 1 = false /\
  getE_interLeft 1 0 0 1 = E_INF.
Proof.
  split; [reflexivity |].
  apply (@InteractionEnergyBasePair.getE_interLeft_descending
           Binary32.arith 64 areComplementary energy 1 0 0 1).
  left. lia.
Defined.

(** The run for [getE]: the model above with dangling energies [-2] on the
    left and [-3] on the right, and position 0 of sequence 1 blocked, so
    that every region of sequence 1 that starts there has an infinite
    accessibility penalty. *)
Definition acc1_blocked : InteractionEnergy.Accessibility :=
  {| InteractionEnergy.getSequence := "GANCG";
     InteractionEnergy.getED :=
       fun i j => if (i =? 0)%Z then Binary32.infinity else Binary32.of_Z (j - i + 1) |}.

Definition energy_blocked : InteractionEnergy.InteractionEnergy :=
  {| InteractionEnergy.accS1 := acc1_blocked;
     InteractionEnergy.accS2 := acc2;
     InteractionEnergy.maxInternalLoopSize1 := 16;
     InteractionEnergy.maxInternalLoopSize2 := 16 |}.

Definition dangling_model : InteractionEnergy.Model :=
  {| InteractionEnergy.getEU := fun _ => E_of_Z 0;
     InteractionEnergy.getE_init := E_of_Z (-1);
     InteractionEnergy.getE_interLeft :=
       InteractionEnergyBasePair.getE_interLeft 64 areComplementary energy_blocked;
     InteractionEnergy.getE_danglingLeft := fun _ _ => E_of_Z (-2);
     InteractionEnergy.getE_danglingRight := fun _ _ => E_of_Z (-3);
     InteractionEnergy.getE_endLeft := fun _ _ => E_of_Z 0;
     InteractionEnergy.getE_endRight := fun _ _ => E_of_Z 0;
     InteractionEnergy.getRT := E_of_Z 1;
     InteractionEnergy.getBestE_interLoop := E_of_Z (-1);
     InteractionEnergy.getBestE_dangling := E_of_Z (-3);
     InteractionEnergy.getBestE_end := E_of_Z 0 |}.

(** The interaction of [1..4] with [0..4] and [hybridE = -5].  The position
    left of [i1 = 1] is blocked, so the left dangling end has probability
    [exp(-inf) * 1 = 0]; on the right both regions end their sequence and
    the probability is [1 * 1].  The overall energy is
    [-5 + 4 + 8 + (-2)*0 + (-3)*1 + 0 + 0 = 4]; with the dangling energies
    added unweighted it would be 2. *)
Lemma getE_infinite_or_sum_witness :
  InteractionEnergy.getPr_danglingLeft 64 energy_blocked dangling_model 1 4 0 4
    = E_of_Z 0 /\
  InteractionEnergy.getPr_danglingRight 64 energy_blocked dangling_model 1 4 0 4
    = E_of_Z 1 /\
  InteractionEnergy.getE 64 energy_blocked dangling_model 1 4 0 4 (E_of_Z (-5))
    = E_of_Z 4.
Proof.
  destruct (@InteractionEnergy.getE_infinite_or_sum
              Binary32.arith 64 energy_blocked dangling_model
              1 4 0 4 (E_of_Z (-5))) as (Hleft & Hright & _ & Hsum).
  - reflexivity.
  - intros _. reflexivity.
  - split; [rewrite Hleft; vm_compute; reflexivity |].
    split; [rewrite Hright; vm_compute; reflexivity |].
    rewrite Hsum.
    + vm_compute. reflexivity.
    + vm_compute. discriminate.
Defined.

(** ** Runs for the further properties *)

Lemma isAllowedLoopRegion_iff_witness :
  InteractionEnergy.isAllowedLoopRegion 64 "GANCG" 0 1 16 = true <->
  0 <= 1 < InteractionEnergy.size "GANCG" /\
  String.get (Z.to_nat 0) "GANCG" <> Some "N"%char /\
  String.get (Z.to_nat 1) "GANCG" <> Some "N"%char /\
  1 - 0 <= 1 + 16.
Proof.
  apply (@InteractionEnergy.isAllowedLoopRegion_iff 64 "GANCG" 0 1 16).
  - lia.
  - vm_compute. discriminate.
  - vm_compute. split; [discriminate | reflexivity].
Defined.

(** the engine of the runs with an unbounded loop size in sequence 1 *)
Definition energy_unbounded : InteractionEnergy.InteractionEnergy :=
  {| InteractionEnergy.accS1 := acc1;
     InteractionEnergy.accS2 := acc2;
     InteractionEnergy.maxInternalLoopSize1 := size_t_max 64;
     InteractionEnergy.maxInternalLoopSize2 := 16 |}.

Lemma isValidInternalLoop_unbounded_size_witness :
  isValidInternalLoop 0 1 0 1 = true /\
  InteractionEnergy.isValidInternalLoop 64 areComplementary energy_unbounded 0 1 0 1
  = false.
Proof.
  split; [reflexivity |].
  apply (@InteractionEnergy.isValidInternalLoop_unbounded_size
           Binary32.arith 64 areComplementary energy_unbounded 0 1 0 1).
  left. reflexivity.
Defined.

Lemma isValidInternalLoop_true_iff_witness :
  isValidInternalLoop 0 4 0 1 = true <->
  InteractionEnergy.areComplementary areComplementary energy 0 0 = true /\
  InteractionEnergy.areComplementary areComplementary energy 4 1 = true /\
  InteractionEnergy.isAllowedLoopRegion 64 "GANCG" 0 4 16 = true /\
  InteractionEnergy.isAllowedLoopRegion 64 "CUAGC" 0 1 16 = true /\
  (4 - 0 > 0 /\ 1 - 0 > 0).
Proof.
  apply (@InteractionEnergy.isValidInternalLoop_true_iff
           Binary32.arith 64 areComplementary energy 0 4 0 1).
  - lia.
  - lia.
  - vm_compute. discriminate.
  - vm_compute. discriminate.
Defined.

Lemma getE_SSE_lanes_witness :
  (SFeqb (Binary32.of_bits (lane 3 lanes_hybridE)) Binary32.infinity = true ->
   Binary32.of_bits
     (lane 3 (getE_SSE past_zero lanes_i1 lanes_j1 lanes_i2 lanes_j2 lanes_hybridE))
   = Binary32.infinity) /\
  (SFeqb (Binary32.of_bits (lane 3 lanes_hybridE)) Binary32.infinity = false ->
   lane 3 (getE_SSE past_zero lanes_i1 lanes_j1 lanes_i2 lanes_j2 lanes_hybridE)
   = lane 3 (InteractionEnergy.getE_SSE_result 64 energy
               (InteractionEnergyBasePair.model 64 areComplementary energy)
               past_zero lanes_i1 lanes_j1 lanes_i2 lanes_j2)).
Proof.
  apply (@InteractionEnergy.getE_SSE_lanes Binary32.arith 64 energy
           (InteractionEnergyBasePair.model 64 areComplementary energy)
           past_zero lanes_i1 lanes_j1 lanes_i2 lanes_j2 lanes_hybridE 3%nat).
  - exact Binary32.bits_range.
  - reflexivity.
Defined.

Lemma SFltb_SFleb (a b : spec_float) : SFltb a b = true -> SFleb a b = true.
Proof.
  unfold SFltb, SFleb. destruct (SFcompare a b) as [[| |] |]; congruence.
Qed.

(** X10. In single precision the clamp of the dangling probabilities,
    [std::max(0.0, std::min(1.0, x))], returns a value between 0 and 1 for
    every [x], infinities and NaN included: a NaN from [std::exp] becomes
    the probability 1. *)
Theorem clamp01_between_0_and_1 (x : spec_float) :
  SFleb (Binary32.of_Z 0) (InteractionEnergy.clamp01 x) = true /\
  SFleb (InteractionEnergy.clamp01 x) (Binary32.of_Z 1) = true /\
  InteractionEnergy.clamp01 S754_nan = Binary32.of_Z 1.
Proof.
  unfold InteractionEnergy.clamp01, std_max, std_min. cbn [Eltb E_of_Z Binary32.arith].
  split; [| split; [| reflexivity]].
  - destruct (SFltb x (Binary32.of_Z 1)) eqn:H1.
    + destruct (SFltb (Binary32.of_Z 0) x) eqn:H0.
      * apply SFltb_SFleb. exact H0.
      * reflexivity.
    + reflexivity.
  - destruct (SFltb x (Binary32.of_Z 1)) eqn:H1.
    + destruct (SFltb (Binary32.of_Z 0) x) eqn:H0.
      * apply SFltb_SFleb. exact H1.
      * reflexivity.
    + reflexivity.
Qed.

End EnergyRuns.

(* ===================================================================== *)
(** * OutputHandlerInteractionList
      ([src/IntaRNA/OutputHandlerInteractionList.cpp]) *)
(* ===================================================================== *)

Module OutputHandlerInteractionList.

Import StdAlgorithm.
Local Open Scope Z_scope.

Section Handler.

(** [Interaction] and [InteractionRange] are declared outside the sources;
    the handler uses [isEmpty()] and the order [operator<] of interactions,
    through [lessThan_StorageContainer(a, b)], which compares what the two
    pointers refer to. *)
Variable Interaction : Type.
Variable InteractionRange : Type.
Variable isEmpty : Interaction -> bool.
Variable lessThan_StorageContainer : Interaction -> Interaction -> bool.

(** The handler: the stored copies in container order, the capacity, and
    the count of reported interactions (a member of the base class). *)
Record t : Type := {
  storage : list Interaction;
  maxToStore : Z;
  reportedInteractions : Z
}.

(** what a member function throws *)
Inductive exception : Type :=
| unsupported_operation (message : string).

(** How a member function ends. *)
Inductive outcome : Type :=
| Done (h : t)
    (** it returns; the handler afterwards *)
| Raised (e : exception) (h : t)
    (** it throws; the handler at the throw *)
| UndefinedRead
    (** it reads through [rbegin()] of an empty container *).

(** the constructor; the count of the base class starts at zero *)
Definition create (maxToStore : Z) : t :=
  {| storage := []; maxToStore := maxToStore; reportedInteractions := 0 |}.

(** [reportedInteractions++] *)
Definition count (h : t) : t :=
  {| storage := storage h;
     maxToStore := maxToStore h;
     reportedInteractions := reportedInteractions h + 1 |}.

Definition with_storage (h : t) (s : list Interaction) : t :=
  {| storage := s;
     maxToStore := maxToStore h;
     reportedInteractions := reportedInteractions h |}.

(** [OutputHandlerInteractionList::add( const Interaction & )], one thread at
    a time.  Iterators are offsets from [begin()], so that [std::prev] and
    [std::next] are [- 1] and [+ 1]. *)
Definition add (h : t) (interaction : Interaction) : outcome :=
  if isEmpty interaction then Done (count h)
  else
    let h := count h in
    let size := Z.of_nat (length (storage h)) in
    let enter :=
      if size <? maxToStore h then Some true
      else match rbegin_elem (storage h) with
           | Some worst => Some (lessThan_StorageContainer interaction worst)
           | None => None
           end in
    match enter with
    | None => UndefinedRead
    | Some false => Done h
    | Some true =>
      let insertPos :=
        Z.of_nat (lower_bound lessThan_StorageContainer (storage h) interaction) in
      let no_duplicate :=
        if insertPos =? size then true
        else match nth_error (storage h) (Z.to_nat insertPos) with
             | Some found => lessThan_StorageContainer interaction found
             | None => true
             end in
      if no_duplicate then
        let '(kept, insertPos, isLastElement) :=
          if size >=? maxToStore h then
            let '(insertPos, isLastElement) :=
              if insertPos =? size - 1 then (insertPos - 1, true)
              else (insertPos, false) in
            (drop_last (storage h), insertPos, isLastElement)
          else (storage h, insertPos, false) in
        let insertPos := if isLastElement then insertPos + 1 else insertPos in
        Done (with_storage h (insert_at (Z.to_nat insertPos) interaction kept))
      else Done h
    end.

(** Modelled from the spec: the macro [INTARNA_NOT_IMPLEMENTED] is defined in
    [general.h], not among the sources; the spec has it fail with an
    explicit unsupported-operation error. *)
Definition INTARNA_NOT_IMPLEMENTED (message : string) (h : t) : outcome :=
  Raised (unsupported_operation message) h.

(** [OutputHandlerInteractionList::add( const InteractionRange & )] *)
Definition add_range (h : t) (range : InteractionRange) : outcome :=
  INTARNA_NOT_IMPLEMENTED
    "OutputHandlerInteractionList::add( const InteractionRange & range )" h.

(** a serialized run of [add] calls *)
Fixpoint add_all (h : t) (reported : list Interaction) : outcome :=
  match reported with
  | [] => Done h
  | interaction :: rest =>
    match add h interaction with
    | Done h' => add_all h' rest
    | stopped => stopped
    end
  end.

(** ** Following the words of the specification *)

(** two interactions of equal rank: neither is less than the other *)
Definition same_rank (a b : Interaction) : bool :=
  negb (lessThan_StorageContainer a b) && negb (lessThan_StorageContainer b a).

(** [x] put at its rank into an ascending list, unless its rank is there *)
Fixpoint rank_insert (x : Interaction) (l : list Interaction) : list Interaction :=
  match l with
  | [] => [x]
  | y :: rest =>
    if lessThan_StorageContainer x y then x :: l
    else if lessThan_StorageContainer y x then y :: rank_insert x rest
    else l
  end.

(** one report: an empty interaction has no rank *)
Definition rank_step (l : list Interaction) (x : Interaction) : list Interaction :=
  if isEmpty x then l else rank_insert x l.

(** the non-empty reported interactions in ascending rank order, one for
    each rank key *)
Definition ranked (reported : list Interaction) : list Interaction :=
  fold_left rank_step reported [].

(** the number of distinct rank keys reported *)
Definition distinct_ranks (reported : list Interaction) : nat :=
  length (ranked reported).


(** ** The order on interactions *)

Context {SWO : StrictWeakOrder lessThan_StorageContainer}.

Local Abbreviation lt := lessThan_StorageContainer.

Lemma same_rank_refl x : same_rank x x = true.
Proof. unfold same_rank. rewrite (ltb_irrefl x). reflexivity. Qed.

Lemma lt_same_rank_r a s x :
  lt a s = true -> same_rank x s = true -> lt a x = true.
Proof.
  intros Has Hxs. unfold same_rank in Hxs.
  apply andb_true_iff in Hxs. destruct Hxs as [H1 H2].
  apply negb_true_iff in H1, H2.
  destruct (ltb_cotrans _ _ x Has) as [H | H]; congruence.
Qed.

Lemma rank_insert_app l1 l2 x :
  Forall (fun y => lt y x = true) l1 ->
  rank_insert x (l1 ++ l2) = l1 ++ rank_insert x l2.
Proof.
  induction l1 as [| a l1 IH]; simpl; intros F; [reflexivity |].
  inversion F as [| ? ? Ha Hl1]; subst.
  rewrite (ltb_asym _ _ Ha), Ha. f_equal. apply IH. assumption.
Qed.

Lemma In_rank_insert x l z :
  In z (rank_insert x l) -> z = x \/ In z l.
Proof.
  induction l as [| y r IH]; simpl.
  - intros [<- | []]. left. reflexivity.
  - destruct (lt x y).
    + intros [<- | H]; auto.
    + destruct (lt y x); simpl; auto.
      intros [<- | H]; auto. destruct (IH H); auto.
Qed.

Lemma rank_insert_keeps x l z : In z l -> In z (rank_insert x l).
Proof.
  induction l as [| y r IH]; simpl; [intros [] |].
  intros Hz. destruct (lt x y); [right; exact Hz |].
  destruct (lt y x); [| exact Hz].
  destruct Hz as [<- | Hz]; [left; reflexivity | right; auto].
Qed.

Lemma rank_insert_represents x l :
  exists s, In s (rank_insert x l) /\ same_rank x s = true.
Proof.
  induction l as [| y r IH]; simpl.
  - exists x. split; [left; reflexivity | apply same_rank_refl].
  - destruct (lt x y) eqn:Hxy.
    + exists x. split; [left; reflexivity | apply same_rank_refl].
    + destruct (lt y x) eqn:Hyx.
      * destruct IH as (s & Hs & Hr). exists s. split; [right; exact Hs | exact Hr].
      * exists y. split; [left; reflexivity |].
        unfold same_rank. rewrite Hxy, Hyx. reflexivity.
Qed.

Lemma rank_insert_strictly_ascending x l :
  strictly_ascending lt l -> strictly_ascending lt (rank_insert x l).
Proof.
  unfold strictly_ascending.
  induction 1 as [| y r Hr IH Hy]; simpl.
  - repeat constructor.
  - destruct (lt x y) eqn:Hxy.
    + constructor; [constructor; assumption |].
      constructor; [exact Hxy |].
      eapply Forall_impl; [| exact Hy]. intros z Hz.
      eapply ltb_trans; eauto.
    + destruct (lt y x) eqn:Hyx; [| constructor; assumption].
      constructor; [exact IH |].
      rewrite Forall_forall in Hy |- *. intros z Hz.
      destruct (In_rank_insert _ _ _ Hz) as [-> | Hin]; auto.
Qed.

Lemma firstn_cons_firstn (A : Type) k (y : A) r :
  firstn k (y :: firstn k r) = firstn k (y :: r).
Proof.
  destruct k as [| k]; [reflexivity |]. rewrite !firstn_cons. f_equal.
  rewrite firstn_firstn. f_equal. lia.
Qed.

Lemma firstn_rank_insert_firstn k x l :
  firstn k (rank_insert x (firstn k l)) = firstn k (rank_insert x l).
Proof.
  revert k. induction l as [| y r IH]; intros k.
  - rewrite firstn_nil. reflexivity.
  - destruct k as [| k]; [reflexivity |].
    rewrite (firstn_cons k y r). cbn [rank_insert].
    destruct (lt x y).
    + rewrite !firstn_cons. f_equal. apply firstn_cons_firstn.
    + destruct (lt y x).
      * rewrite !firstn_cons. f_equal. apply IH.
      * rewrite !firstn_cons. f_equal. rewrite firstn_firstn. f_equal. lia.
Qed.

(** ** One call of [add] on an ascending storage *)

Lemma not_less_than_head x y r worst :
  strictly_ascending lt (y :: r) ->
  In worst (y :: r) ->
  lt x worst = false -> lt x y = false.
Proof.
  intros Hs Hin Hxw.
  destruct (lt x y) eqn:Hxy; [| reflexivity].
  destruct Hin as [-> | Hin]; [congruence |].
  apply StronglySorted_inv in Hs. destruct Hs as [_ Hy].
  rewrite Forall_forall in Hy.
  rewrite (ltb_trans _ _ _ Hxy (Hy _ Hin)) in Hxw. discriminate.
Qed.

Ltac same_handler :=
  unfold with_storage, count;
  cbn [storage maxToStore reportedInteractions];
  f_equal; f_equal.

Lemma add_stores h x :
  isEmpty x = false ->
  1 <= maxToStore h ->
  strictly_ascending lt (storage h) ->
  Z.of_nat (length (storage h)) <= maxToStore h ->
  add h x =
    Done (with_storage (count h)
            (firstn (Z.to_nat (maxToStore h)) (rank_insert x (storage h)))).
Proof.
  destruct h as [S K n]. cbn [storage maxToStore]. intros He HK Hs Hlen.
  unfold add. rewrite He. cbv zeta. cbn [count storage maxToStore reportedInteractions].
  destruct (lower_bound_ascending x (strictly_ascending_ascending Hs))
    as (S1 & S2 & -> & F1 & F2 & ->).
  rewrite (rank_insert_app _ F1).
  rewrite length_app in Hlen.
  assert (HS1 : Forall (fun s => lt x s = false) S1).
  { eapply Forall_impl; [| exact F1]. intros s Hsx. exact (ltb_asym _ _ Hsx). }
  destruct (Z.ltb_spec (Z.of_nat (length (S1 ++ S2))) K) as [Hlt | Hge].
  - (* room left *)
    rewrite length_app in Hlt.
    replace (Z.of_nat (length (S1 ++ S2)) >=? K) with false
      by (symmetry; rewrite Z.geb_leb; apply Z.leb_gt; rewrite length_app; lia).
    destruct S2 as [| y r].
    + rewrite app_nil_r, Z.eqb_refl. cbn [rank_insert].
      rewrite Nat2Z.id. same_handler.
      rewrite firstn_all2 by (rewrite length_app; simpl; lia).
      rewrite <- (app_nil_r S1) at 2. apply insert_at_split.
    + replace (Z.of_nat (length S1) =? Z.of_nat (length (S1 ++ y :: r))) with false
        by (symmetry; apply Z.eqb_neq; rewrite length_app; simpl; lia).
      rewrite Nat2Z.id, nth_error_middle.
      inversion F2 as [| ? ? Hyx Fr]; subst.
      cbn [rank_insert]. rewrite Hyx.
      destruct (lt x y) eqn:Hxy.
      * same_handler.
        rewrite ?Nat2Z.id, insert_at_split.
        rewrite firstn_all2 by (rewrite length_app; simpl in *; lia).
        reflexivity.
      * same_handler.
        rewrite firstn_all2 by (rewrite length_app; simpl in *; lia).
        reflexivity.
  - (* storage is full *)
    rewrite length_app in Hge.
    assert (HlenK : Z.to_nat K = (length S1 + length S2)%nat) by lia.
    destruct S2 as [| y r].
    + (* every stored interaction is better *)
      rewrite app_nil_r in *. simpl in HlenK. rewrite Nat.add_0_r in HlenK.
      destruct (exists_last (l:=S1)) as (S1' & worst & HS1').
      { intros ->. simpl in *. lia. }
      rewrite HS1' at 1. rewrite rbegin_elem_snoc.
      assert (Hw : lt x worst = false).
      { rewrite Forall_forall in HS1. apply HS1. rewrite HS1'.
        apply in_or_app. right. left. reflexivity. }
      rewrite Hw. same_handler.
      rewrite HlenK. symmetry. apply firstn_length_app.
    + destruct (exists_last (l:=y :: r)) as (S2' & worst & HS2); [discriminate |].
      assert (Hrb : rbegin_elem (S1 ++ y :: r) = Some worst).
      { rewrite HS2, app_assoc. apply rbegin_elem_snoc. }
      rewrite Hrb.
      inversion F2 as [| ? ? Hyx Fr]; subst.
      apply StronglySorted_app_iff in Hs. destruct Hs as (_ & Hs2 & _).
      assert (Hin : In worst (y :: r)).
      { rewrite HS2. apply in_or_app. right. left. reflexivity. }
      cbn [rank_insert]. rewrite Hyx.
      destruct (lt x worst) eqn:Hxw.
      * replace (Z.of_nat (length S1) =? Z.of_nat (length (S1 ++ y :: r))) with false
          by (symmetry; apply Z.eqb_neq; rewrite length_app; simpl; lia).
        rewrite Nat2Z.id, nth_error_middle.
        destruct (lt x y) eqn:Hxy.
        -- replace (Z.of_nat (length (S1 ++ y :: r)) >=? K) with true
             by (symmetry; rewrite Z.geb_leb; apply Z.leb_le; rewrite length_app; lia).
           assert (Hpos : forall b : bool,
                     Z.to_nat (let '(p, isLast) :=
                                 if b then (Z.of_nat (length S1) - 1, true)
                                 else (Z.of_nat (length S1), false) in
                               if isLast then p + 1 else p) = length S1).
           { intros []; lia. }
           destruct (Z.of_nat (length S1) =? Z.of_nat (length (S1 ++ y :: r)) - 1);
             same_handler.
           ++ replace (Z.to_nat (Z.of_nat (length S1) - 1 + 1)) with (length S1) by lia.
              rewrite HS2 at 1. rewrite app_assoc, drop_last_snoc, insert_at_split.
              rewrite HlenK, HS2.
              replace (length S1 + length (S2' ++ [worst]))%nat
                with (length (S1 ++ x :: S2')).
              ** replace (S1 ++ x :: S2' ++ [worst]) with ((S1 ++ x :: S2') ++ [worst])
                   by (rewrite <- app_assoc; reflexivity).
                 symmetry. apply firstn_length_app.
              ** rewrite !length_app. simpl. lia.
           ++ rewrite ?Nat2Z.id.
              rewrite HS2 at 1. rewrite app_assoc, drop_last_snoc, insert_at_split.
              rewrite HlenK, HS2.
              replace (length S1 + length (S2' ++ [worst]))%nat
                with (length (S1 ++ x :: S2')).
              ** replace (S1 ++ x :: S2' ++ [worst]) with ((S1 ++ x :: S2') ++ [worst])
                   by (rewrite <- app_assoc; reflexivity).
                 symmetry. apply firstn_length_app.
              ** rewrite !length_app. simpl. lia.
        -- same_handler.
           rewrite firstn_all2 by (rewrite length_app; simpl in *; lia).
           reflexivity.
      * rewrite (not_less_than_head Hs2 Hin Hxw).
        same_handler.
        rewrite firstn_all2 by (rewrite length_app; simpl in *; lia).
        reflexivity.
Qed.

(** ** A run of calls *)

Lemma strictly_ascending_firstn k l :
  strictly_ascending lt l -> strictly_ascending lt (firstn k l).
Proof.
  unfold strictly_ascending. intros Hs.
  rewrite <- (firstn_skipn k l) in Hs.
  apply StronglySorted_app_iff in Hs. tauto.
Qed.

Lemma rank_step_strictly_ascending l x :
  strictly_ascending lt l -> strictly_ascending lt (rank_step l x).
Proof.
  intros Hs. unfold rank_step. destruct (isEmpty x); [exact Hs |].
  apply rank_insert_strictly_ascending. exact Hs.
Qed.

Lemma fold_rank_step_strictly_ascending reported l :
  strictly_ascending lt l ->
  strictly_ascending lt (fold_left rank_step reported l).
Proof.
  revert l. induction reported as [| x rest IH]; intros l Hs; simpl; auto.
  apply IH. apply rank_step_strictly_ascending. exact Hs.
Qed.

Lemma fold_rank_step_keeps reported l s :
  In s l -> In s (fold_left rank_step reported l).
Proof.
  revert l. induction reported as [| x rest IH]; intros l Hs; simpl; auto.
  apply IH. unfold rank_step. destruct (isEmpty x); auto.
  apply rank_insert_keeps. exact Hs.
Qed.

Lemma fold_rank_step_from reported l s :
  In s (fold_left rank_step reported l) ->
  In s l \/ (In s reported /\ isEmpty s = false).
Proof.
  revert l. induction reported as [| x rest IH]; intros l Hs; simpl in *; auto.
  destruct (IH _ Hs) as [Hl | [Hr He]]; [| tauto].
  unfold rank_step in Hl. destruct (isEmpty x) eqn:Hx; auto.
  destruct (In_rank_insert _ _ _ Hl) as [-> | Hin]; auto.
Qed.

Lemma fold_rank_step_represents reported l x :
  In x reported -> isEmpty x = false ->
  exists s, In s (fold_left rank_step reported l) /\ same_rank x s = true.
Proof.
  revert l. induction reported as [| y rest IH]; intros l Hin He; simpl in *;
    [contradiction |].
  destruct Hin as [-> | Hin]; [| apply IH; assumption].
  unfold rank_step at 2. rewrite He.
  destruct (rank_insert_represents x l) as (s & Hs & Hr).
  exists s. split; [| exact Hr]. apply fold_rank_step_keeps. exact Hs.
Qed.

Lemma add_all_ranked K reported : forall h l,
  1 <= K ->
  maxToStore h = K ->
  strictly_ascending lt l ->
  storage h = firstn (Z.to_nat K) l ->
  exists h',
    add_all h reported = Done h' /\
    maxToStore h' = K /\
    storage h' = firstn (Z.to_nat K) (fold_left rank_step reported l) /\
    reportedInteractions h' = reportedInteractions h + Z.of_nat (length reported).
Proof.
  induction reported as [| x rest IH]; intros h l HK Hmax Hs Hst.
  - exists h. simpl. repeat split; auto. lia.
  - cbn [add_all fold_left].
    destruct (isEmpty x) eqn:He.
    + assert (Hadd : add h x = Done (count h)) by (unfold add; rewrite He; reflexivity).
      rewrite Hadd.
      destruct (IH (count h) l HK Hmax Hs Hst) as (h' & Hrun & Hm & Hs' & Hc).
      exists h'. unfold rank_step at 2. rewrite He.
      repeat split; auto.
      rewrite Hc. cbn [count reportedInteractions length]. lia.
    + rewrite add_stores; auto.
      * rewrite Hmax, Hst, firstn_rank_insert_firstn.
        destruct (IH (with_storage (count h)
                        (firstn (Z.to_nat K) (rank_insert x l)))
                     (rank_insert x l) HK Hmax
                     (rank_insert_strictly_ascending x Hs) eq_refl)
          as (h' & Hrun & Hm & Hs' & Hc).
        exists h'. unfold rank_step at 2. rewrite He.
        repeat split; auto.
        rewrite Hc. cbn [with_storage count reportedInteractions length]. lia.
      * lia.
      * rewrite Hst. apply strictly_ascending_firstn. exact Hs.
      * rewrite Hst, Hmax. rewrite length_firstn. lia.
Qed.

(** C7. [add] with an empty interaction returns, with the count of reported
    interactions one higher and the stored interactions (and the capacity)
    as they were. *)
Theorem add_empty_counts_only (h : t) (interaction : Interaction) :
  isEmpty interaction = true ->
  exists h',
    add h interaction = Done h' /\
    storage h' = storage h /\
    maxToStore h' = maxToStore h /\
    reportedInteractions h' = reportedInteractions h + 1.
Proof.
  intros He. exists (count h). unfold add. rewrite He.
  repeat split.
Qed.

(** C9. [add] with an [InteractionRange] throws the not-implemented error;
    it does not return, and the handler at the throw is the handler before
    the call. *)
Theorem add_range_not_implemented (h : t) (range : InteractionRange) :
  add_range h range =
    Raised (unsupported_operation
              "OutputHandlerInteractionList::add( const InteractionRange & range )") h
  /\ forall h', add_range h range <> Done h'.
Proof.
  split; [reflexivity |]. intros h'. discriminate.
Qed.

(** X17. For a capacity [K >= 1] and any serialized run
    of [add] calls on a new handler, every call returns and the storage
    afterwards is the first [min(K, d)] entries of the ascending list of
    the [d] distinct rank keys reported with non-empty interactions: it is
    strictly ascending, its entries are non-empty reported interactions,
    and every non-empty reported interaction either has its rank stored or
    ranks behind [K] stored entries.  The count is the number of calls. *)
Theorem add_all_retains_best (K : Z) (reported : list Interaction) :
  1 <= K ->
  exists h,
    add_all (create K) reported = Done h /\
    storage h = firstn (Z.to_nat K) (ranked reported) /\
    strictly_ascending lt (storage h) /\
    Z.of_nat (length (storage h)) = Z.min K (Z.of_nat (distinct_ranks reported)) /\
    (forall s, In s (storage h) -> In s reported /\ isEmpty s = false) /\
    (forall x, In x reported -> isEmpty x = false ->
       (exists s, In s (storage h) /\ same_rank x s = true) \/
       (Z.of_nat (length (storage h)) = K /\
        forall s, In s (storage h) -> lt s x = true)) /\
    reportedInteractions h = Z.of_nat (length reported).
Proof.
  intros HK.
  assert (Hnil : strictly_ascending lt []) by constructor.
  destruct (@add_all_ranked K reported (create K) [] HK eq_refl Hnil)
    as (h & Hrun & Hmax & Hst & Hcount).
  { rewrite firstn_nil. reflexivity. }
  fold (ranked reported) in Hst.
  pose proof (fold_rank_step_strictly_ascending reported Hnil) as Hsorted.
  fold (ranked reported) in Hsorted.
  cbn [create reportedInteractions] in Hcount.
  exists h. split; [exact Hrun |]. split; [exact Hst |].
  split; [rewrite Hst; apply strictly_ascending_firstn; exact Hsorted |].
  split; [rewrite Hst, length_firstn; unfold distinct_ranks; lia |].
  split; [| split].
  - intros s Hs. rewrite Hst in Hs.
    assert (Hr : In s (ranked reported)).
    { rewrite <- (firstn_skipn (Z.to_nat K)). apply in_or_app. left. exact Hs. }
    clear Hs. rename Hr into Hs.
    destruct (fold_rank_step_from _ _ _ Hs) as [[] | H]. exact H.
  - intros x Hin He.
    destruct (@fold_rank_step_represents reported [] x Hin He) as (s & Hs & Hr).
    fold (ranked reported) in Hs.
    rewrite <- (firstn_skipn (Z.to_nat K) (ranked reported)) in Hs, Hsorted.
    apply in_app_or in Hs. destruct Hs as [Hs | Hs].
    + left. exists s. rewrite Hst. split; assumption.
    + right. rewrite Hst. split.
      * assert (length (skipn (Z.to_nat K) (ranked reported)) <> 0)%nat
          by (destruct (skipn _ _); [contradiction | discriminate]).
        rewrite length_skipn in H. rewrite length_firstn. lia.
      * intros a Ha.
        apply StronglySorted_app_iff in Hsorted.
        destruct Hsorted as (_ & _ & H12).
        eapply lt_same_rank_r; [apply H12; eassumption | exact Hr].
  - rewrite Hcount. lia.
Qed.

(** ** Further properties of [add] *)

Lemma rank_insert_length x l :
  (length l <= length (rank_insert x l) <= S (length l))%nat.
Proof.
  induction l as [| y r IH]; simpl; [lia |].
  destruct (lt x y); simpl; [lia |].
  destruct (lt y x); simpl; lia.
Qed.

Lemma rank_insert_again x l :
  rank_insert x (rank_insert x l) = rank_insert x l.
Proof.
  induction l as [| y r IH]; simpl.
  - rewrite (ltb_irrefl x). reflexivity.
  - destruct (lt x y) eqn:Hxy.
    + simpl. rewrite (ltb_irrefl x). reflexivity.
    + destruct (lt y x) eqn:Hyx; simpl; rewrite Hxy, Hyx; [| reflexivity].
      f_equal. exact IH.
Qed.

Lemma nth_error_rank_insert_better x z l : forall i,
  strictly_ascending lt l ->
  nth_error l i = Some z ->
  lt z x = true ->
  nth_error (rank_insert x l) i = Some z.
Proof.
  unfold strictly_ascending.
  induction l as [| y r IH]; intros i Hs Hi Hzx; [destruct i; discriminate |].
  apply StronglySorted_inv in Hs. destruct Hs as [Hr Hy].
  assert (Hyx : lt y x = true).
  { destruct i as [| i]; simpl in Hi.
    - inversion Hi; subst. exact Hzx.
    - rewrite Forall_forall in Hy.
      eapply ltb_trans; [apply Hy; eapply nth_error_In; eauto | exact Hzx]. }
  simpl. rewrite (ltb_asym _ _ Hyx), Hyx.
  destruct i as [| i]; simpl in *; auto.
Qed.

Lemma strictly_ascending_same_elements l1 : forall l2,
  strictly_ascending lt l1 ->
  strictly_ascending lt l2 ->
  (forall z, In z l1 <-> In z l2) ->
  l1 = l2.
Proof.
  unfold strictly_ascending.
  induction l1 as [| a r1 IH]; intros l2 H1 H2 Hin.
  - destruct l2 as [| b r2]; [reflexivity |].
    destruct (proj2 (Hin b) (or_introl eq_refl)).
  - destruct l2 as [| b r2].
    { destruct (proj1 (Hin a) (or_introl eq_refl)). }
    apply StronglySorted_inv in H1, H2.
    destruct H1 as [S1 F1], H2 as [S2 F2].
    rewrite Forall_forall in F1, F2.
    assert (Hab : a = b).
    { destruct (proj1 (Hin a) (or_introl eq_refl)) as [Hb | Hb]; [auto |].
      destruct (proj2 (Hin b) (or_introl eq_refl)) as [Ha | Ha]; [auto |].
      pose proof (ltb_asym _ _ (F1 _ Ha)) as Hc.
      rewrite (F2 _ Hb) in Hc. discriminate. }
    subst b. f_equal. apply IH; auto.
    intros z. split; intros Hz.
    + destruct (proj1 (Hin z) (or_intror Hz)) as [<- | Hz2]; [| exact Hz2].
      pose proof (F1 _ Hz) as Hc. rewrite (ltb_irrefl a) in Hc. discriminate.
    + destruct (proj2 (Hin z) (or_intror Hz)) as [<- | Hz1]; [| exact Hz1].
      pose proof (F2 _ Hz) as Hc. rewrite (ltb_irrefl a) in Hc. discriminate.
Qed.

Lemma add_result h x :
  1 <= maxToStore h ->
  strictly_ascending lt (storage h) ->
  Z.of_nat (length (storage h)) <= maxToStore h ->
  exists h',
    add h x = Done h' /\
    maxToStore h' = maxToStore h /\
    reportedInteractions h' = reportedInteractions h + 1 /\
    storage h' = firstn (Z.to_nat (maxToStore h)) (rank_step (storage h) x).
Proof.
  intros HK Hs Hlen. unfold rank_step.
  destruct (isEmpty x) eqn:He.
  - exists (count h). unfold add. rewrite He. repeat split.
    cbn [count storage]. symmetry. apply firstn_all2. lia.
  - rewrite add_stores by assumption.
    eexists. split; [reflexivity |]. repeat split.
Qed.

(** X12. One call of [add] keeps the handler in shape.  On a handler of
    capacity at least one whose storage is strictly ascending and within
    the capacity, [add] returns; the capacity is unchanged and the count
    one higher; the storage is again strictly ascending and within the
    capacity, has not shrunk, and holds nothing but former entries and the
    reported interaction. *)
Theorem add_keeps_invariant (h : t) (x : Interaction) :
  1 <= maxToStore h ->
  strictly_ascending lt (storage h) ->
  Z.of_nat (length (storage h)) <= maxToStore h ->
  exists h',
    add h x = Done h' /\
    maxToStore h' = maxToStore h /\
    reportedInteractions h' = reportedInteractions h + 1 /\
    strictly_ascending lt (storage h') /\
    (length (storage h) <= length (storage h'))%nat /\
    Z.of_nat (length (storage h')) <= maxToStore h /\
    (forall z, In z (storage h') -> z = x \/ In z (storage h)).
Proof.
  intros HK Hs Hlen.
  destruct (@add_result h x HK Hs Hlen) as (h' & Hadd & Hmax & Hcount & Hst).
  exists h'. rewrite Hst.
  pose proof (rank_step_strictly_ascending x Hs) as Hs'.
  assert (Hl : (length (storage h) <= length (rank_step (storage h) x)
                <= S (length (storage h)))%nat).
  { unfold rank_step. destruct (isEmpty x); [lia | apply rank_insert_length]. }
  repeat split; auto.
  - apply strictly_ascending_firstn. exact Hs'.
  - rewrite length_firstn. lia.
  - rewrite length_firstn. lia.
  - intros z Hz.
    assert (Hin : In z (rank_step (storage h) x)).
    { rewrite <- (firstn_skipn (Z.to_nat (maxToStore h))).
      apply in_or_app. left. exact Hz. }
    unfold rank_step in Hin. destruct (isEmpty x); [right; exact Hin |].
    apply In_rank_insert. exact Hin.
Qed.

(** X13. Reporting the same interaction twice in a row: both calls return,
    the second leaves the storage as the first left it, and the count is
    two higher. *)
Theorem add_twice (h : t) (x : Interaction) :
  1 <= maxToStore h ->
  strictly_ascending lt (storage h) ->
  Z.of_nat (length (storage h)) <= maxToStore h ->
  exists h1 h2,
    add h x = Done h1 /\
    add h1 x = Done h2 /\
    storage h2 = storage h1 /\
    reportedInteractions h2 = reportedInteractions h + 2.
Proof.
  intros HK Hs Hlen.
  destruct (@add_result h x HK Hs Hlen) as (h1 & Hadd1 & Hmax1 & Hcount1 & Hst1).
  assert (Hs1 : strictly_ascending lt (storage h1)).
  { rewrite Hst1. apply strictly_ascending_firstn.
    apply rank_step_strictly_ascending. exact Hs. }
  assert (Hlen1 : Z.of_nat (length (storage h1)) <= maxToStore h1).
  { rewrite Hst1, Hmax1, length_firstn. lia. }
  assert (HK1 : 1 <= maxToStore h1) by lia.
  destruct (@add_result h1 x HK1 Hs1 Hlen1) as (h2 & Hadd2 & Hmax2 & Hcount2 & Hst2).
  exists h1, h2. repeat split; auto; [| lia].
  rewrite Hst2, Hmax1, Hst1. unfold rank_step.
  destruct (isEmpty x).
  - rewrite firstn_firstn. f_equal. lia.
  - rewrite firstn_rank_insert_firstn, rank_insert_again. reflexivity.
Qed.

(** X15. [add] never evicts an entry that ranks better than the reported
    interaction: such an entry is stored afterwards, at the position it
    had. *)
Theorem add_keeps_better (h : t) (x z : Interaction) (i : nat) :
  1 <= maxToStore h ->
  strictly_ascending lt (storage h) ->
  Z.of_nat (length (storage h)) <= maxToStore h ->
  nth_error (storage h) i = Some z ->
  lt z x = true ->
  exists h', add h x = Done h' /\ nth_error (storage h') i = Some z.
Proof.
  intros HK Hs Hlen Hi Hzx.
  destruct (@add_result h x HK Hs Hlen) as (h' & Hadd & _ & _ & Hst).
  exists h'. split; [exact Hadd |].
  rewrite Hst, nth_error_firstn.
  assert (Hlt : (i < length (storage h))%nat)
    by (apply nth_error_Some; congruence).
  replace (i <? Z.to_nat (maxToStore h))%nat with true
    by (symmetry; apply Nat.ltb_lt; lia).
  unfold rank_step. destruct (isEmpty x); [exact Hi |].
  apply nth_error_rank_insert_better; assumption.
Qed.

(** X16. A non-empty interaction that arrives while there is room, or that
    ranks better than a stored entry, has its rank stored afterwards: the
    storage holds it or the entry of equal rank that was there. *)
Theorem add_stores_better (h : t) (x : Interaction) :
  1 <= maxToStore h ->
  strictly_ascending lt (storage h) ->
  Z.of_nat (length (storage h)) <= maxToStore h ->
  isEmpty x = false ->
  Z.of_nat (length (storage h)) < maxToStore h \/
  (exists z, In z (storage h) /\ lt x z = true) ->
  exists h' s,
    add h x = Done h' /\ In s (storage h') /\ same_rank x s = true /\
    (s = x \/ In s (storage h)).
Proof.
  intros HK Hs Hlen He Hroom.
  destruct (@add_result h x HK Hs Hlen) as (h' & Hadd & _ & _ & Hst).
  unfold rank_step in Hst. rewrite He in Hst.
  destruct (lower_bound_ascending x (strictly_ascending_ascending Hs))
    as (S1 & S2 & HS & F1 & F2 & _).
  rewrite HS in Hst, Hlen, Hroom |- *. rewrite (rank_insert_app _ F1) in Hst.
  rewrite length_app in Hlen, Hroom.
  assert (HS1 : (length S1 < Z.to_nat (maxToStore h))%nat).
  { destruct Hroom as [Hr | (z & Hz & Hxz)]; [lia |].
    apply in_app_or in Hz. destruct Hz as [Hz | Hz].
    - rewrite Forall_forall in F1.
      pose proof (ltb_asym _ _ (F1 _ Hz)) as Hc. congruence.
    - destruct S2; [contradiction | simpl in Hlen; lia]. }
  assert (Hhead : exists s rest,
            rank_insert x S2 = s :: rest /\ same_rank x s = true /\
            (s = x \/ In s S2)).
  { destruct S2 as [| y r]; simpl.
    - exists x, []. repeat split; auto. apply same_rank_refl.
    - inversion F2 as [| ? ? Hyx Fr]; subst. rewrite Hyx.
      destruct (lt x y) eqn:Hxy.
      + exists x, (y :: r). repeat split; auto. apply same_rank_refl.
      + exists y, r. repeat split; auto.
        unfold same_rank. rewrite Hxy, Hyx. reflexivity. }
  destruct Hhead as (s & rest & Hri & Hsame & Hfrom).
  exists h', s. split; [exact Hadd |]. split; [| split; [exact Hsame |]].
  - rewrite Hst, Hri. eapply nth_error_In with (n := length S1).
    rewrite nth_error_firstn.
    replace (length S1 <? Z.to_nat (maxToStore h))%nat with true
      by (symmetry; apply Nat.ltb_lt; exact HS1).
    apply nth_error_middle.
  - destruct Hfrom as [-> | Hin]; [left; reflexivity |].
    right. apply in_or_app. right. exact Hin.
Qed.

(** X14. When the order on interactions is total, the storage after a run
    of [add] calls on a new handler does not depend on the order of the
    calls: any permutation of the reports leaves the same storage and the
    same count. *)
Theorem add_all_order_irrelevant (K : Z) (reported reported' : list Interaction) :
  (forall a b, lt a b = false -> lt b a = false -> a = b) ->
  1 <= K ->
  Permutation reported reported' ->
  exists h h',
    add_all (create K) reported = Done h /\
    add_all (create K) reported' = Done h' /\
    storage h = storage h' /\
    reportedInteractions h = reportedInteractions h'.
Proof.
  intros Htotal HK Hperm.
  assert (Hnil : strictly_ascending lt []) by constructor.
  destruct (@add_all_ranked K reported (create K) [] HK eq_refl Hnil)
    as (h & Hrun & _ & Hst & Hcount); [rewrite firstn_nil; reflexivity |].
  destruct (@add_all_ranked K reported' (create K) [] HK eq_refl Hnil)
    as (h' & Hrun' & _ & Hst' & Hcount'); [rewrite firstn_nil; reflexivity |].
  exists h, h'. repeat split; auto.
  - rewrite Hst, Hst'. f_equal.
    assert (Hmem : forall l z,
              In z (fold_left rank_step l []) <-> In z l /\ isEmpty z = false).
    { intros l z. split.
      - intros Hz. destruct (fold_rank_step_from _ _ _ Hz) as [[] | H]. exact H.
      - intros [Hz He].
        destruct (@fold_rank_step_represents l [] z Hz He) as (s & Hs & Hr).
        unfold same_rank in Hr. apply andb_true_iff in Hr.
        destruct Hr as [Hr1 Hr2]. apply negb_true_iff in Hr1, Hr2.
        rewrite (Htotal _ _ Hr1 Hr2). exact Hs. }
    apply strictly_ascending_same_elements.
    + apply fold_rank_step_strictly_ascending. exact Hnil.
    + apply fold_rank_step_strictly_ascending. exact Hnil.
    + intros z. rewrite !Hmem. split; intros [Hz He]; split; auto.
      * eapply Permutation_in; eauto.
      * eapply Permutation_in; [apply Permutation_sym |]; eauto.
  - rewrite Hcount, Hcount'. rewrite (Permutation_length Hperm). reflexivity.
Qed.

End Handler.

Arguments UndefinedRead {Interaction}.

End OutputHandlerInteractionList.

(* ===================================================================== *)
(** * Runs of the handler *)
(* ===================================================================== *)

Module HandlerRuns.

Import StdAlgorithm.
Local Open Scope Z_scope.

(** Modelled from the spec: [Interaction.h] is not among the sources.  An
    interaction is a set of base pairs with an energy; it is empty without
    base pairs; a lower energy ranks better and ties are broken by a key
    over the coordinates, here the first index of the left-most pair. *)
Record Interaction : Type := {
  energy : Z;
  basePairs : list (Z * Z)
}.

Definition isEmpty (i : Interaction) : bool :=
  match basePairs i with
  | [] => true
  | _ => false
  end.

Definition leftmost (i : Interaction) : Z :=
  match basePairs i with
  | (i1, _) :: _ => i1
  | [] => 0
  end.

Definition lessThan (a b : Interaction) : bool :=
  (energy a <? energy b) || ((energy a =? energy b) && (leftmost a <? leftmost b)).

#[global] Instance lessThan_order : StrictWeakOrder lessThan.
Proof. split; unfold lessThan; intros; lexicographic. Qed.

(** an interaction of one base pair [(0, 0)] with the given energy *)
Definition pair_with (e : Z) : Interaction :=
  {| energy := e; basePairs := [(0, 0)] |}.

Definition nothing_found : Interaction := {| energy := 0; basePairs := [] |}.

Definition add_all :=
  @OutputHandlerInteractionList.add_all Interaction isEmpty lessThan.

Definition create := @OutputHandlerInteractionList.create Interaction.

(** [maxToStore = 3], five interactions with distinct energies: the three
    of lowest energy stay, in ascending order *)
Example run_five_keeps_three :
  add_all (create 3) (map pair_with [-5; -1; -9; -3; -7])
  = OutputHandlerInteractionList.Done
      {| OutputHandlerInteractionList.storage := map pair_with [-9; -7; -5];
         OutputHandlerInteractionList.maxToStore := 3;
         OutputHandlerInteractionList.reportedInteractions := 5 |}.
Proof. reflexivity. Qed.

(** an interaction of a rank that is stored does not grow the storage; an
    empty interaction is counted only; capacity one replaces its entry *)
Example run_duplicate_and_empty :
  add_all (create 3)
    [pair_with (-5); pair_with (-5); nothing_found;
     {| energy := -5; basePairs := [(0, 7)] |}]
  = OutputHandlerInteractionList.Done
      {| OutputHandlerInteractionList.storage := [pair_with (-5)];
         OutputHandlerInteractionList.maxToStore := 3;
         OutputHandlerInteractionList.reportedInteractions := 4 |}.
Proof. reflexivity. Qed.

Example run_capacity_one :
  add_all (create 1) (map pair_with [-1; -3; -2])
  = OutputHandlerInteractionList.Done
      {| OutputHandlerInteractionList.storage := [pair_with (-3)];
         OutputHandlerInteractionList.maxToStore := 1;
         OutputHandlerInteractionList.reportedInteractions := 3 |}.
Proof. reflexivity. Qed.

(** C4, at capacity zero.  With [maxToStore = 0] the first non-empty
    interaction makes [add] read [*(storage.rbegin())] of the empty storage
    (the test [storage.size() < maxToStore] in front of the read fails):
    the call does not return with the empty storage that [min(0, 1) = 0]
    retained interactions would be. *)
Lemma add_capacity_zero_reads_empty_storage :
  isEmpty (pair_with (-5)) = false /\
  add_all (create 0) [pair_with (-5)] = OutputHandlerInteractionList.UndefinedRead /\
  ~ exists h, add_all (create 0) [pair_with (-5)] = OutputHandlerInteractionList.Done h.
Proof.
  split; [reflexivity |]. split; [reflexivity |].
  intros [h H]. discriminate H.
Qed.

Lemma add_all_retains_best_witness :
  exists h,
    add_all (create 3) (map pair_with [-5; -1; -9; -3; -7])
      = OutputHandlerInteractionList.Done h /\
    OutputHandlerInteractionList.storage h = map pair_with [-9; -7; -5].
Proof.
  destruct (@OutputHandlerInteractionList.add_all_retains_best
              Interaction isEmpty lessThan lessThan_order
              3 (map pair_with [-5; -1; -9; -3; -7]))
    as (h & Hrun & Hst & _).
  - lia.
  - exists h. split; [exact Hrun |]. rewrite Hst. reflexivity.
Defined.

Lemma add_empty_counts_only_witness :
  exists h',
    OutputHandlerInteractionList.add isEmpty lessThan
      {| OutputHandlerInteractionList.storage := map pair_with [-9; -7];
         OutputHandlerInteractionList.maxToStore := 3;
         OutputHandlerInteractionList.reportedInteractions := 2 |}
      nothing_found
    = OutputHandlerInteractionList.Done h' /\
    OutputHandlerInteractionList.storage h' = map pair_with [-9; -7] /\
    OutputHandlerInteractionList.maxToStore h' = 3 /\
    OutputHandlerInteractionList.reportedInteractions h' = 2 + 1.
Proof.
  apply (@OutputHandlerInteractionList.add_empty_counts_only
           Interaction isEmpty lessThan
           {| OutputHandlerInteractionList.storage := map pair_with [-9; -7];
              OutputHandlerInteractionList.maxToStore := 3;
              OutputHandlerInteractionList.reportedInteractions := 2 |}
           nothing_found).
  reflexivity.
Defined.

(** ** Runs for the further properties *)

(** a full handler of capacity three *)
Definition full_handler : OutputHandlerInteractionList.t Interaction :=
  {| OutputHandlerInteractionList.storage := map pair_with [-9; -7; -5];
     OutputHandlerInteractionList.maxToStore := 3;
     OutputHandlerInteractionList.reportedInteractions := 5 |}.

Lemma full_handler_ascending :
  strictly_ascending lessThan (OutputHandlerInteractionList.storage full_handler).
Proof. repeat constructor. Defined.

Definition add := @OutputHandlerInteractionList.add Interaction isEmpty lessThan.

Lemma add_keeps_invariant_witness :
  exists h',
    add full_handler (pair_with (-8)) = OutputHandlerInteractionList.Done h' /\
    OutputHandlerInteractionList.maxToStore h' = 3 /\
    OutputHandlerInteractionList.reportedInteractions h' = 5 + 1 /\
    strictly_ascending lessThan (OutputHandlerInteractionList.storage h') /\
    (3 <= length (OutputHandlerInteractionList.storage h'))%nat /\
    Z.of_nat (length (OutputHandlerInteractionList.storage h')) <= 3 /\
    (forall z, In z (OutputHandlerInteractionList.storage h') ->
               z = pair_with (-8) \/ In z (map pair_with [-9; -7; -5])).
Proof.
  apply (@OutputHandlerInteractionList.add_keeps_invariant
           Interaction isEmpty lessThan lessThan_order
           full_handler (pair_with (-8))).
  - simpl. lia.
  - exact full_handler_ascending.
  - simpl. lia.
Defined.

Example add_evicts_the_worst :
  add full_handler (pair_with (-8))
  = OutputHandlerInteractionList.Done
      {| OutputHandlerInteractionList.storage := map pair_with [-9; -8; -7];
         OutputHandlerInteractionList.maxToStore := 3;
         OutputHandlerInteractionList.reportedInteractions := 6 |}.
Proof. reflexivity. Qed.

Lemma add_twice_witness :
  exists h1 h2,
    add full_handler (pair_with (-8)) = OutputHandlerInteractionList.Done h1 /\
    add h1 (pair_with (-8)) = OutputHandlerInteractionList.Done h2 /\
    OutputHandlerInteractionList.storage h2 = OutputHandlerInteractionList.storage h1 /\
    OutputHandlerInteractionList.reportedInteractions h2 = 5 + 2.
Proof.
  apply (@OutputHandlerInteractionList.add_twice
           Interaction isEmpty lessThan lessThan_order
           full_handler (pair_with (-8))).
  - simpl. lia.
  - exact full_handler_ascending.
  - simpl. lia.
Defined.

Lemma add_keeps_better_witness :
  exists h',
    add full_handler (pair_with (-8)) = OutputHandlerInteractionList.Done h' /\
    nth_error (OutputHandlerInteractionList.storage h') 0 = Some (pair_with (-9)).
Proof.
  apply (@OutputHandlerInteractionList.add_keeps_better
           Interaction isEmpty lessThan lessThan_order
           full_handler (pair_with (-8)) (pair_with (-9)) 0%nat).
  - simpl. lia.
  - exact full_handler_ascending.
  - simpl. lia.
  - reflexivity.
  - reflexivity.
Defined.

Lemma add_stores_better_witness :
  exists h' s,
    add full_handler (pair_with (-8)) = OutputHandlerInteractionList.Done h' /\
    In s (OutputHandlerInteractionList.storage h') /\
    OutputHandlerInteractionList.same_rank lessThan (pair_with (-8)) s = true /\
    (s = pair_with (-8) \/ In s (map pair_with [-9; -7; -5])).
Proof.
  apply (@OutputHandlerInteractionList.add_stores_better
           Interaction isEmpty lessThan lessThan_order
           full_handler (pair_with (-8))).
  - simpl. lia.
  - exact full_handler_ascending.
  - simpl. lia.
  - reflexivity.
  - right. exists (pair_with (-7)). split; [simpl; auto | reflexivity].
Defined.

(** interactions told apart by their energy and one site index: the order
    on them is total *)
Record Hit : Type := { hit_energy : Z; hit_site : Z }.

Definition hit_less (a b : Hit) : bool :=
  (hit_energy a <? hit_energy b)
  || ((hit_energy a =? hit_energy b) && (hit_site a <? hit_site b)).

#[global] Instance hit_less_order : StrictWeakOrder hit_less.
Proof. split; unfold hit_less; intros; lexicographic. Qed.

Lemma hit_less_total (a b : Hit) :
  hit_less a b = false -> hit_less b a = false -> a = b.
Proof.
  destruct a as [ea sa], b as [eb sb]. unfold hit_less. simpl.
  rewrite !orb_false_iff, !andb_false_iff, !Z.ltb_ge, !Z.eqb_neq.
  intros H1 H2. f_equal; lia.
Qed.

Definition hits : list Hit :=
  [ {| hit_energy := -5; hit_site := 2 |}; {| hit_energy := -9; hit_site := 0 |};
    {| hit_energy := -5; hit_site := 1 |}; {| hit_energy := -1; hit_site := 4 |} ].

Lemma add_all_order_irrelevant_witness :
  exists h h',
    OutputHandlerInteractionList.add_all (fun _ : Hit => false) hit_less
      (OutputHandlerInteractionList.create Hit 2) hits
      = OutputHandlerInteractionList.Done h /\
    OutputHandlerInteractionList.add_all (fun _ : Hit => false) hit_less
      (OutputHandlerInteractionList.create Hit 2) (rev hits)
      = OutputHandlerInteractionList.Done h' /\
    OutputHandlerInteractionList.storage h = OutputHandlerInteractionList.storage h' /\
    OutputHandlerInteractionList.reportedInteractions h
    = OutputHandlerInteractionList.reportedInteractions h'.
Proof.
  apply (@OutputHandlerInteractionList.add_all_order_irrelevant
           Hit (fun _ => false) hit_less hit_less_order 2 hits (rev hits)).
  - exact hit_less_total.
  - lia.
  - apply Permutation_rev.
Defined.

(** without a total order the first report of a rank is the one kept *)
Example equal_rank_keeps_first_report :
  add_all (create 3) [pair_with (-5); {| energy := -5; basePairs := [(0, 7)] |}]
  = OutputHandlerInteractionList.Done
      {| OutputHandlerInteractionList.storage := [pair_with (-5)];
         OutputHandlerInteractionList.maxToStore := 3;
         OutputHandlerInteractionList.reportedInteractions := 2 |}
  /\
  add_all (create 3) [{| energy := -5; basePairs := [(0, 7)] |}; pair_with (-5)]
  = OutputHandlerInteractionList.Done
      {| OutputHandlerInteractionList.storage :=
           [{| energy := -5; basePairs := [(0, 7)] |}];
         OutputHandlerInteractionList.maxToStore := 3;
         OutputHandlerInteractionList.reportedInteractions := 2 |}.
Proof. split; reflexivity. Qed.

Example add_all_reversed_run :
  OutputHandlerInteractionList.add_all (fun _ : Hit => false) hit_less
    (OutputHandlerInteractionList.create Hit 2) (rev hits)
  = OutputHandlerInteractionList.Done
      {| OutputHandlerInteractionList.storage :=
           [ {| hit_energy := -9; hit_site := 0 |};
             {| hit_energy := -5; hit_site := 1 |} ];
         OutputHandlerInteractionList.maxToStore := 2;
         OutputHandlerInteractionList.reportedInteractions := 4 |}.
Proof. reflexivity. Qed.

End HandlerRuns.
